(** * Shortest-path "maximum saving" heuristic: a shallow embedding

    The development follows [Shortest_path_maximum_saving_function.py]
    function by function.  Python values are rendered as follows.

    - [str] is [string]; a character is a code point below 256.
    - [int] is [Z] (Python integers are unbounded).  The cells of the frame
      are signed 64-bit scalars: a value read from the frame is a [Z] in the
      64-bit range, and sums and differences of such values wrap around
      ([int64_add], [int64_sub]).  A frame with a cell outside that range is
      not a 64-bit frame and is left out of the model ([WideFrame]).
    - an edge, the three-element list [[row, column, cost]], is the record
      [edge].
    - a raised exception, a normal return and an exhausted iteration budget
      of the only [while] loop are constructors of [outcome]; so is the case
      in which the frame constructor pads the table with NaN, where the
      program goes on in floating point and the model stops.
    - a list that the source mutates in place ([find_unique_node],
      [add_isolated_node]) is threaded through the model as explicit state. *)

From Stdlib Require Import String Ascii List ZArith Lia Bool Arith PeanoNat.
From Stdlib Require Import Permutation Sorted.
Import ListNotations.

Local Open Scope string_scope.
Local Open Scope list_scope.

(* ================================================================= *)
(** ** Exceptions and outcomes *)

(** The exceptions the program can raise.  None of them is defined by the
    program itself: they come from the builtins it calls. *)
Inductive exn : Type :=
| InvalidLiteral (token : string)   (* int(token): ValueError *)
| DigitLimit (digits : nat)         (* int(token), too many digits: ValueError *)
| ShapeMismatch                     (* frame constructor: ValueError *)
| NotInList (x : string)            (* list.index(x): ValueError *)
| IndexOutOfRange.                  (* list[i]: IndexError *)

(** The class name under which an exception can be caught. *)
Definition exn_name (e : exn) : string :=
  match e with
  | InvalidLiteral _ => "ValueError"
  | DigitLimit _ => "ValueError"
  | ShapeMismatch => "ValueError"
  | NotInList _ => "ValueError"
  | IndexOutOfRange => "IndexError"
  end.

Inductive outcome (A : Type) : Type :=
| Done (a : A)        (* normal return *)
| Raise (e : exn)     (* an exception propagates *)
| OutOfFuel           (* the while loop used up its iteration budget *)
| FloatFrame          (* the frame holds NaN cells: outside the integer model *)
| WideFrame.          (* a cell does not fit in 64 bits: outside the model *)

Arguments Done {A} a.
Arguments Raise {A} e.
Arguments OutOfFuel {A}.
Arguments FloatFrame {A}.
Arguments WideFrame {A}.

Definition bind {A B : Type} (m : outcome A) (k : A -> outcome B) : outcome B :=
  match m with
  | Done a => k a
  | Raise e => Raise e
  | OutOfFuel => OutOfFuel
  | FloatFrame => FloatFrame
  | WideFrame => WideFrame
  end.

Notation "x <- m ;; k" := (bind m (fun x => k))
  (at level 61, m at next level, right associativity).
Notation "' pat <- m ;; k" := (bind m (fun x => match x with pat => k end))
  (at level 61, pat pattern, m at next level, right associativity).

(** A list comprehension whose body may raise: elements are evaluated from
    left to right and the first exception wins. *)
Fixpoint mapM {A B : Type} (f : A -> outcome B) (l : list A) : outcome (list B) :=
  match l with
  | [] => Done []
  | x :: l' => y <- f x ;; ys <- mapM f l' ;; Done (y :: ys)
  end.

(* ================================================================= *)
(** ** Builtins on strings and lists *)

Definition code (c : ascii) : nat := nat_of_ascii c.

(** Line boundaries of [str.splitlines]: LF, CR, VT, FF, FS, GS, RS, NEL. *)
Definition is_linebreak (c : ascii) : bool :=
  existsb (Nat.eqb (code c)) [10; 13; 11; 12; 28; 29; 30; 133]%nat.

Definition snoc (s : string) (c : ascii) : string := s ++ String c "".

(** [str.splitlines()]: [cur] is the line being read.  CR LF is one boundary
    and a trailing boundary does not open a further line. *)
Fixpoint splitlines_from (cur : string) (s : string) : list string :=
  match s with
  | EmptyString => if String.eqb cur "" then [] else [cur]
  | String c rest =>
      if is_linebreak c then
        cur :: match rest with
               | String c' rest' =>
                   if (Nat.eqb (code c) 13 && Nat.eqb (code c') 10)%bool
                   then splitlines_from "" rest'
                   else splitlines_from "" rest
               | EmptyString => []
               end
      else splitlines_from (snoc cur c) rest
  end.

Definition splitlines (s : string) : list string := splitlines_from "" s.

(** [str.split(',')]: always at least one field. *)
Fixpoint split_from (cur : string) (s : string) : list string :=
  match s with
  | EmptyString => [cur]
  | String c rest =>
      if Ascii.eqb c ","%char then cur :: split_from "" rest
      else split_from (snoc cur c) rest
  end.

Definition split_comma (s : string) : list string := split_from "" s.

(** Whitespace skipped by [int()]: TAB, LF, VT, FF, CR, space, NEL, NBSP. *)
Definition is_space (c : ascii) : bool :=
  existsb (Nat.eqb (code c)) [9; 10; 11; 12; 13; 32; 133; 160]%nat.

Definition digit_of (c : ascii) : option Z :=
  let n := code c in
  if ((48 <=? n) && (n <=? 57))%nat then Some (Z.of_nat (n - 48)) else None.

Fixpoint skip_spaces (s : string) : string :=
  match s with
  | String c rest => if is_space c then skip_spaces rest else s
  | EmptyString => s
  end.

Inductive scan_state : Type := AtStart | AfterDigit | AfterUnderscore.

(** The digit run of a base-10 literal: single underscores are allowed
    between digits only.  Returns the value, the number of digits read and
    the unread rest. *)
Fixpoint scan_digits (st : scan_state) (acc : Z) (count : nat) (s : string)
  : option (Z * nat * string) :=
  match s with
  | EmptyString =>
      match st with AfterDigit => Some (acc, count, s) | _ => None end
  | String c rest =>
      match digit_of c with
      | Some d => scan_digits AfterDigit (10 * acc + d)%Z (S count) rest
      | None =>
          if Ascii.eqb c "_"%char then
            match st with
            | AfterDigit => scan_digits AfterUnderscore acc count rest
            | _ => None
            end
          else
            match st with AfterDigit => Some (acc, count, s) | _ => None end
      end
  end.

(** The interpreter's default limit on the digits of a decimal literal. *)
Definition max_str_digits : nat := 4300.

(** [int(text)] for a string argument: optional surrounding whitespace, an
    optional sign, a digit run; anything else is a [ValueError].  A
    well-formed digit run of more than [max_str_digits] digits is a
    [ValueError] of its own, raised before the text after the run is looked
    at; its message gives the number of digits, not the text. *)
Definition py_int (text : string) : outcome Z :=
  let s := skip_spaces text in
  let '(sign, body) :=
    match s with
    | String c rest =>
        if Ascii.eqb c "+"%char then (1%Z, rest)
        else if Ascii.eqb c "-"%char then ((-1)%Z, rest)
        else (1%Z, s)
    | EmptyString => (1%Z, s)
    end in
  match scan_digits AtStart 0%Z 0%nat body with
  | Some (v, digits, rest) =>
      if Nat.ltb max_str_digits digits then Raise (DigitLimit digits)
      else
        match skip_spaces rest with
        | EmptyString => Done (sign * v)%Z
        | _ => Raise (InvalidLiteral text)
        end
  | None => Raise (InvalidLiteral text)
  end.

(** [x in l] on a list of strings. *)
Definition py_in (x : string) (l : list string) : bool :=
  existsb (String.eqb x) l.

(** [l.index(x)]: position of the first occurrence. *)
Fixpoint index_of (x : string) (l : list string) : option nat :=
  match l with
  | [] => None
  | y :: l' => if String.eqb x y then Some 0%nat
               else option_map S (index_of x l')
  end.

(* ================================================================= *)
(** ** The cost table *)

(** The frame built by [wrangle]: row labels, column labels and the cells,
    row by row. *)
Record DataFrame : Type := mkDataFrame {
  index : list string;
  columns : list string;
  cells : list (list Z)
}.

(** Number of cells of the widest row. *)
Definition row_width {A : Type} (data : list (list A)) : nat :=
  fold_right (fun r w => Nat.max (length r) w) 0%nat data.

(** The values of a signed 64-bit scalar, and the reduction of an integer
    to that range by wrap-around. *)
Definition in_int64 (z : Z) : bool :=
  (Z.leb (- 2 ^ 63) z && Z.ltb z (2 ^ 63))%bool.

Definition wrap64 (z : Z) : Z := ((z + 2 ^ 63) mod 2 ^ 64 - 2 ^ 63)%Z.

(** [+] and [-] on two 64-bit scalars, or on one and a Python integer that
    fits in 64 bits: the result is a 64-bit scalar and overflow wraps. *)
Definition int64_add (a b : Z) : Z := wrap64 (a + b).
Definition int64_sub (a b : Z) : Z := wrap64 (a - b).

(** The frame constructor applied to a list of rows.  It raises a
    [ValueError] when the widest row does not have one cell per column
    label.  A single row is repeated for every row label; otherwise there has
    to be one row per row label, or a [ValueError] is raised.  Shorter rows
    are padded with NaN and an empty list of rows gives an all-NaN frame:
    those frames hold floating-point cells and are left to [FloatFrame].  The
    columns of the other frames are 64-bit integer columns provided every
    cell fits; if one does not, the frame is left to [WideFrame]. *)
Definition pd_DataFrame (data : list (list Z)) (idx cols : list string)
  : outcome DataFrame :=
  match data with
  | [] => FloatFrame
  | first :: others =>
      if negb (Nat.eqb (row_width data) (length cols)) then Raise ShapeMismatch
      else
        match others with
        | [] =>
            if forallb in_int64 first
            then Done (mkDataFrame idx cols (repeat first (length idx)))
            else WideFrame
        | _ :: _ =>
            if negb (Nat.eqb (length data) (length idx)) then Raise ShapeMismatch
            else if negb (forallb (fun r => Nat.eqb (length r) (length cols)) data)
                 then FloatFrame
                 else if forallb (forallb in_int64) data
                      then Done (mkDataFrame idx cols data)
                      else WideFrame
        end
  end.

(** [df.loc[row, column]] for a frame with distinct labels on each axis.
    The program only addresses the frame with labels taken from its own
    axes, so the lookup cannot miss.  (With a repeated label the lookup of
    the program returns a column of cells instead of a cell and the program
    raises; no property below is stated for such a frame without saying
    so.) *)
Definition loc (df : DataFrame) (row column : string) : Z :=
  match index_of row (index df), index_of column (columns df) with
  | Some i, Some j => nth j (nth i (cells df) []) 0%Z
  | _, _ => 0%Z
  end.

(** [texttoint] *)
Definition texttoint (text : string) : outcome Z :=
  if String.eqb text "" then Done 0%Z else py_int text.

(** The cell expression of [wrangle]:
    [texttoint(cost) if cost != '-' else 0]. *)
Definition parse_cell (cost : string) : outcome Z :=
  if negb (String.eqb cost "-") then texttoint cost else Done 0%Z.

(** [wrangle] *)
Definition wrangle (input_network : string) (vertices_name : list string)
  : outcome DataFrame :=
  let extracted_lines := splitlines input_network in
  let lines_list := map split_comma extracted_lines in
  parsed_network <- mapM (mapM parse_cell) lines_list ;;
  pd_DataFrame parsed_network vertices_name vertices_name.

(* ================================================================= *)
(** ** Edges *)

(** The list [[row, column, cost]]; the cost is a 64-bit scalar read from
    the frame. *)
Record edge : Type := Edge {
  edge_row : string;
  edge_column : string;
  edge_cost : Z
}.

(** [==] on two such lists. *)
Definition edge_eqb (a b : edge) : bool :=
  (String.eqb (edge_row a) (edge_row b)
   && String.eqb (edge_column a) (edge_column b)
   && Z.eqb (edge_cost a) (edge_cost b))%bool.

(** The test [row+column in seen or column+row in seen]. *)
Definition recorded (row column : string) (seen : list string) : bool :=
  (py_in (row ++ column)%string seen || py_in (column ++ row)%string seen)%bool.

(* ================================================================= *)
(** ** [get_unique_nodes] *)

(** The inner loop over [df.columns] for one [row]: returns [temp] and the
    updated [seen]. *)
Fixpoint unique_columns (df : DataFrame) (row : string) (cols : list string)
  (seen : list string) : list edge * list string :=
  match cols with
  | [] => ([], seen)
  | column :: cols' =>
      if String.eqb row column then unique_columns df row cols' seen
      else if Z.eqb (loc df row column) 0 then unique_columns df row cols' seen
      else if recorded row column seen then unique_columns df row cols' seen
      else
        let '(temp, seen') :=
          unique_columns df row cols' (seen ++ [(row ++ column)%string]) in
        (Edge row column (loc df row column) :: temp, seen')
  end.

(** The outer loop over [df.index]; a row with an empty [temp] adds nothing. *)
Fixpoint unique_rows (df : DataFrame) (rows : list string) (seen : list string)
  : list (list edge) :=
  match rows with
  | [] => []
  | row :: rows' =>
      let '(temp, seen') := unique_columns df row (columns df) seen in
      match temp with
      | [] => unique_rows df rows' seen'
      | _ :: _ => temp :: unique_rows df rows' seen'
      end
  end.

Definition get_unique_nodes (df : DataFrame) : list (list edge) :=
  unique_rows df (index df) [].

(* ================================================================= *)
(** ** [get_nodes] *)

(** The inner loop of [get_nodes] for one [row]. *)
Fixpoint row_edges (df : DataFrame) (row : string) (cols : list string)
  : list edge :=
  match cols with
  | [] => []
  | column :: cols' =>
      if String.eqb row column then row_edges df row cols'
      else if Z.eqb (loc df row column) 0 then row_edges df row cols'
      else Edge row column (loc df row column) :: row_edges df row cols'
  end.

(** [sorted(nodes, key=lambda x: x[2])].  The builtin is a stable sort; a
    stable insertion sort returns the same list. *)
Fixpoint insert_by_cost (e : edge) (l : list edge) : list edge :=
  match l with
  | [] => [e]
  | y :: l' =>
      if Z.leb (edge_cost e) (edge_cost y) then e :: l
      else y :: insert_by_cost e l'
  end.

Fixpoint py_sorted (l : list edge) : list edge :=
  match l with
  | [] => []
  | e :: l' => insert_by_cost e (py_sorted l')
  end.

Definition nonempty {A : Type} (l : list A) : bool :=
  match l with [] => false | _ :: _ => true end.

Definition get_nodes (df : DataFrame) : list (list edge) :=
  let vertices :=
    filter nonempty (map (fun row => row_edges df row (columns df)) (index df)) in
  map py_sorted vertices.

(* ================================================================= *)
(** ** [get_shortest_edges] *)

(** [l[i]] for a non-negative [i]. *)
Definition item {A : Type} (l : list A) (i : nat) : outcome A :=
  match nth_error l i with
  | Some x => Done x
  | None => Raise IndexOutOfRange
  end.

Definition get_shortest_edges (vertices : list (list edge)) : outcome (list edge) :=
  mapM (fun line => item line 0) vertices.

(* ================================================================= *)
(** ** [find_unique_node] *)

(** [edges.remove(edge)]: drops the first element equal to [edge]. *)
Fixpoint remove_first (e : edge) (l : list edge) : list edge :=
  match l with
  | [] => []
  | y :: l' => if edge_eqb e y then l' else y :: remove_first e l'
  end.

(** The [for edge in edges] loop.  The list iterator is the position [i] in
    the live list: it advances by one after every iteration, whether or not
    the body removed an element.  [fuel] bounds the number of iterations. *)
Fixpoint find_unique_loop (fuel : nat) (i : nat) (edges : list edge)
  (selected : list string) : list edge :=
  match fuel with
  | O => edges
  | S fuel' =>
      match nth_error edges i with
      | None => edges
      | Some e =>
          let row := edge_row e in
          let column := edge_column e in
          if recorded row column selected
          then find_unique_loop fuel' (S i) (remove_first e edges) selected
          else find_unique_loop fuel' (S i) edges (selected ++ [(row ++ column)%string])
      end
  end.

(** The loop runs at most once per element of the list it starts with. *)
Definition find_unique_node (edges : list edge) : list edge :=
  find_unique_loop (length edges) 0 edges [].

(* ================================================================= *)
(** ** [get_connected_nodes] *)

(** The body of the inner loop, for one [name = node[:2]]. *)
Definition connect_step (connected_nodes : list string) (name : string * string)
  : list string :=
  let '(a, b) := name in
  if negb (py_in a connected_nodes) then
    if negb (py_in b connected_nodes) then connected_nodes
    else connected_nodes ++ [a]
  else
    if negb (py_in b connected_nodes) then connected_nodes ++ [b]
    else connected_nodes.

Definition get_connected_nodes (shortest_edges : list edge)
  : outcome (list string) :=
  first <- item shortest_edges 0 ;;
  let connected_nodes := [edge_row first; edge_column first] in
  let edge_name :=
    map (fun node => (edge_row node, edge_column node)) shortest_edges in
  Done (fold_left
          (fun connected_nodes _ => fold_left connect_step edge_name connected_nodes)
          (seq 0 2) connected_nodes).

(* ================================================================= *)
(** ** [add_isolated_node] *)

(** [[x for x in node_names if x not in connected_nodes]] *)
Definition isolated_of (node_names connected_nodes : list string) : list string :=
  filter (fun x => negb (py_in x connected_nodes)) node_names.

Definition list_index (x : string) (l : list string) : outcome nat :=
  match index_of x l with
  | Some i => Done i
  | None => Raise (NotInList x)
  end.

(** The [while isolated_nodes] loop; one unit of [fuel] per iteration.
    Returns the final contents of [shortest_edges]. *)
Fixpoint add_isolated_loop (fuel : nat) (node_names : list string)
  (vertices : list (list edge)) (shortest_edges : list edge)
  (isolated_nodes : list string) : outcome (list edge) :=
  match isolated_nodes with
  | [] => Done shortest_edges
  | tmp :: _ =>
      match fuel with
      | O => OutOfFuel
      | S fuel' =>
          i <- list_index tmp node_names ;;
          line <- item vertices i ;;
          new_node <- item line 1 ;;
          let shortest_edges := shortest_edges ++ [new_node] in
          connected_nodes <- get_connected_nodes shortest_edges ;;
          let isolated_nodes := isolated_of node_names connected_nodes in
          add_isolated_loop fuel' node_names vertices shortest_edges isolated_nodes
      end
  end.

(** Returns the number of added edges together with the final contents of
    the list [shortest_edges], which the source extends in place. *)
Definition add_isolated_node (fuel : nat) (node_names : list string)
  (vertices : list (list edge)) (shortest_edges : list edge)
  (isolated_nodes : list string) (connected_nodes : list string)
  : outcome (Z * list edge) :=
  let initial_length := length shortest_edges in
  final <- add_isolated_loop fuel node_names vertices shortest_edges isolated_nodes ;;
  let final_length := length final in
  Done ((Z.of_nat final_length - Z.of_nat initial_length)%Z, final).

(* ================================================================= *)
(** ** [network_cost] and [maximum_saving] *)

(** [sum] starts as the Python integer 0 and becomes a 64-bit scalar with
    the first [sum += edge[2]]. *)
Definition network_cost (graph : list edge) : Z :=
  fold_left (fun sum e => int64_add sum (edge_cost e)) graph 0%Z.

Definition vertices_name : list string := ["A"; "B"; "C"; "D"; "E"; "F"; "G"].

(** The candidate set after duplicate removal and connectivity repair: the
    contents of [shortest_edges] when [maximum_saving] evaluates
    [network_cost(shortest_edges)]. *)
Definition repaired_edges (fuel : nat) (names : list string) (df : DataFrame)
  : outcome (list edge) :=
  let all_nodes := get_nodes df in
  shortest_edges <- get_shortest_edges all_nodes ;;
  let shortest_edges := find_unique_node shortest_edges in
  connected_nodes <- get_connected_nodes shortest_edges ;;
  let isolated_nodes := isolated_of names connected_nodes in
  '(_, shortest_edges) <-
    add_isolated_node fuel names all_nodes shortest_edges
      isolated_nodes connected_nodes ;;
  Done shortest_edges.

(** [maximum_saving].  The value printed on the way, [min_cost], is not part
    of the result. *)
Definition maximum_saving (fuel : nat) (input_network : string) : outcome Z :=
  df <- wrangle input_network vertices_name ;;
  let all_nodes := get_nodes df in
  shortest_edges <- get_shortest_edges all_nodes ;;
  let shortest_edges := find_unique_node shortest_edges in
  connected_nodes <- get_connected_nodes shortest_edges ;;
  let isolated_nodes := isolated_of vertices_name connected_nodes in
  '(_, shortest_edges) <-
    add_isolated_node fuel vertices_name all_nodes shortest_edges
      isolated_nodes connected_nodes ;;
  let unique_nodes := get_unique_nodes df in
  let all_unique_edges := concat unique_nodes in
  let max_cost := network_cost all_unique_edges in
  let min_cost := network_cost shortest_edges in
  let max_saving := int64_sub max_cost min_cost in
  Done max_saving.

(* ================================================================= *)
(** ** Vocabulary of the specification *)

(** Sum of the costs of an edge list. *)
Definition sum_costs (graph : list edge) : Z :=
  fold_right (fun e s => (edge_cost e + s)%Z) 0%Z graph.

(** Two edges join the same unordered pair of vertices. *)
Definition same_pair (a b c d : string) : bool :=
  ((String.eqb a c && String.eqb b d) || (String.eqb a d && String.eqb b c))%bool.

Definition joins (a b : string) (e : edge) : bool :=
  same_pair a b (edge_row e) (edge_column e).

(** How many edges of [l] join [a] and [b]. *)
Definition count_pair (a b : string) (l : list edge) : nat :=
  length (filter (joins a b) l).

(** The orchestrator of the specification: the fixed sequence of §4.6 run
    over a label list supplied by the caller, with the cost evaluation of
    the code. *)
Definition spec_maximumSaving (labels : list string) (fuel : nat)
  (text : string) : outcome Z :=
  df <- wrangle text labels ;;
  repaired <- repaired_edges fuel labels df ;;
  Done (int64_sub (network_cost (concat (get_unique_nodes df)))
          (network_cost repaired)).

(** The two vertices of an edge, [node[:2]]. *)
Definition endpoints (node : edge) : string * string :=
  (edge_row node, edge_column node).

(** The rows of cell tokens of a matrix text. *)
Definition text_rows (text : string) : list (list string) :=
  map split_comma (splitlines text).

(* ================================================================= *)
(** ** Concrete networks *)

(** The network of the example usage at the end of the source file. *)
Definition example_network : string :=
"-,14,10,19,-,-,-
14,-,-,15,18,-,-
10,-,-,26,,29,-
19,15,26,-,16,17,21
-,18,-,16,-,-,9
-,-,29,17,-,-,25
-,-,-,21,9,25,-
".

(** The matrix of the concrete scenario of the specification. *)
Definition scenario_network : string :=
"-,14,10,19,-,-,-
14,-,-,15,18,-,-
10,-,-,26,-,29,-
19,15,26,-,16,17,21
-,18,-,16,-,-,9
-,-,29,17,-,-,25
-,-,-,21,9,25,-".

(** A symmetric tree in which A-B and C-D are mutually cheapest and C's
    second-cheapest edge, C-B, is the dearest of the graph. *)
Definition overshoot_network : string :=
"-,1,-,-,2,3,4
1,-,200,-,-,-,-
-,200,-,100,-,-,-
-,-,100,-,-,-,-
2,-,-,-,-,-,-
3,-,-,-,-,-,-
4,-,-,-,-,-,-".

(** A connected symmetric graph: D-E are mutually cheapest, F hangs on D and
    is joined to the rest by the edge F-A only. *)
Definition looping_network : string :=
"-,1,3,-,-,50,4
1,-,-,-,-,-,-
3,-,-,-,-,-,-
-,-,-,-,1,2,-
-,-,-,1,-,-,-
50,-,-,2,-,-,-
4,-,-,-,-,-,-".

(** A connected symmetric graph in which C has the single edge C-D. *)
Definition single_edge_network : string :=
"-,1,-,5,9,9,9
1,-,-,-,-,-,-
-,-,-,1,-,-,-
5,-,1,-,-,-,-
9,-,-,-,-,-,-
9,-,-,-,-,-,-
9,-,-,-,-,-,-".

(** Seven rows of seven "no edge" markers. *)
Definition empty_network : string :=
"-,-,-,-,-,-,-
-,-,-,-,-,-,-
-,-,-,-,-,-,-
-,-,-,-,-,-,-
-,-,-,-,-,-,-
-,-,-,-,-,-,-
-,-,-,-,-,-,-".

(** A two-vertex network. *)
Definition two_vertex_network : string :=
"-,5
5,-".

(** The frame of [looping_network], the candidate set that reaches the
    repair loop and the edge the loop keeps appending. *)
Definition looping_frame : DataFrame :=
  mkDataFrame vertices_name vertices_name
    [[0; 1; 3; 0; 0; 50; 4];
     [1; 0; 0; 0; 0; 0; 0];
     [3; 0; 0; 0; 0; 0; 0];
     [0; 0; 0; 0; 1; 2; 0];
     [0; 0; 0; 1; 0; 0; 0];
     [50; 0; 0; 2; 0; 0; 0];
     [4; 0; 0; 0; 0; 0; 0]]%Z.

Definition looping_candidates : list edge :=
  [Edge "A" "B" 1; Edge "C" "A" 3; Edge "D" "E" 1; Edge "F" "D" 2;
   Edge "G" "A" 4]%Z.

Definition looping_edge : edge := Edge "D" "F" 2%Z.

(** The frame of [single_edge_network] and the candidate set that reaches
    the repair loop. *)
Definition single_edge_frame : DataFrame :=
  mkDataFrame vertices_name vertices_name
    [[0; 1; 0; 5; 9; 9; 9];
     [1; 0; 0; 0; 0; 0; 0];
     [0; 0; 0; 1; 0; 0; 0];
     [5; 0; 1; 0; 0; 0; 0];
     [9; 0; 0; 0; 0; 0; 0];
     [9; 0; 0; 0; 0; 0; 0];
     [9; 0; 0; 0; 0; 0; 0]]%Z.

Definition single_edge_candidates : list edge :=
  [Edge "A" "B" 1; Edge "C" "D" 1; Edge "D" "C" 1; Edge "E" "A" 9;
   Edge "F" "A" 9; Edge "G" "A" 9]%Z.

(** A two-by-two text with a token that is not a number. *)
Definition malformed_network : string :=
"-,x
3,-".

(** A network over labels of different lengths: the edges A-BB and AB-B. *)
Definition mixed_labels : list string := ["A"; "AB"; "B"; "BB"].

Definition mixed_network : string :=
"-,-,-,1
-,-,2,-
-,2,-,-
1,-,-,-".

Definition mixed_frame : DataFrame :=
  mkDataFrame mixed_labels mixed_labels
    [[0; 0; 0; 1]; [0; 0; 2; 0]; [0; 2; 0; 0]; [1; 0; 0; 0]]%Z.

(* ================================================================= *)
(** ** The derivations of the specification *)

(** The cells that are edges, in row-major order: self-entries and zero
    cells are left out. *)
Definition scan_edges (df : DataFrame) : list edge :=
  flat_map (fun row => row_edges df row (columns df)) (index df).

(** Keep an edge unless an edge already kept joins the same unordered pair. *)
Fixpoint first_of_pair (kept : list edge) (l : list edge) : list edge :=
  match l with
  | [] => []
  | e :: l' =>
      if existsb (joins (edge_row e) (edge_column e)) kept
      then first_of_pair kept l'
      else e :: first_of_pair (kept ++ [e]) l'
  end.

(** [distinctEdges] of the specification. *)
Definition spec_distinctEdges (df : DataFrame) : list edge :=
  first_of_pair [] (scan_edges df).

(** The string under which an edge is recorded in [seen]. *)
Definition key (e : edge) : string := (edge_row e ++ edge_column e)%string.

(** [l1] is [l2] with some elements left out, the others in their order. *)
Inductive subsequence {A : Type} : list A -> list A -> Prop :=
| subsequence_nil : subsequence [] []
| subsequence_skip (x : A) (l1 l2 : list A) :
    subsequence l1 l2 -> subsequence l1 (x :: l2)
| subsequence_keep (x : A) (l1 l2 : list A) :
    subsequence l1 l2 -> subsequence (x :: l1) (x :: l2).

(** Both labels of every edge of [l] have [n] characters. *)
Definition labels_of_length (n : nat) (l : list edge) : Prop :=
  Forall (fun e => String.length (edge_row e) = n
                   /\ String.length (edge_column e) = n) l.

(** All labels have the same number of characters. *)
Definition uniform_labels (names : list string) : Prop :=
  forall a b, In a names -> In b names -> String.length a = String.length b.

(** [e] is the first edge of [l], in list order, whose cost is minimal. *)
Definition cheapest_first (e : edge) (l : list edge) : Prop :=
  exists before after,
    l = before ++ e :: after
    /\ (forall x, In x before -> (edge_cost e < edge_cost x)%Z)
    /\ (forall x, In x after -> (edge_cost e <= edge_cost x)%Z).

(** Ascending order of cost. *)
Definition cost_le (a b : edge) : Prop := (edge_cost a <= edge_cost b)%Z.

(** The edges of a candidate list chosen by vertex [v]. *)
Definition chosen_by (v : string) (l : list edge) : list edge :=
  filter (fun e => String.eqb (edge_row e) v) l.

(** Vertex [v] has an incident edge: a non-zero cell off the diagonal in
    its row. *)
Definition has_edge (df : DataFrame) (v : string) : Prop :=
  exists c, In c (columns df) /\ c <> v /\ loc df v c <> 0%Z.

(* ================================================================= *)
(** ** Further vocabulary *)

(** The value of a run of decimal digits, read from the left on top of
    [acc]. *)
Fixpoint decimal_from (acc : Z) (s : string) : Z :=
  match s with
  | EmptyString => acc
  | String c rest =>
      match digit_of c with
      | Some d => decimal_from (10 * acc + d)%Z rest
      | None => acc
      end
  end.

Fixpoint all_digits (s : string) : bool :=
  match s with
  | EmptyString => true
  | String c rest =>
      match digit_of c with
      | Some _ => all_digits rest
      | None => false
      end
  end.

(** Scanning [l] from the left and recording the key of every edge met, no
    edge is met with its pair already recorded in [seen]. *)
Fixpoint unrecorded (seen : list string) (l : list edge) : Prop :=
  match l with
  | [] => True
  | e :: l' =>
      recorded (edge_row e) (edge_column e) seen = false
      /\ unrecorded (seen ++ [key e]) l'
  end.

(** A scan that drops an edge whose pair is recorded and then passes over
    the edge that follows it, keeping it and recording nothing. *)
Fixpoint skip_scan (selected : list string) (l : list edge) : list edge :=
  match l with
  | [] => []
  | e :: rest =>
      if recorded (edge_row e) (edge_column e) selected then
        match rest with
        | [] => []
        | e' :: rest' => e' :: skip_scan selected rest'
        end
      else e :: skip_scan (selected ++ [key e]) rest
  end.

(** Some edge of [edges] joins [a] and [b]. *)
Definition linked (edges : list edge) (a b : string) : Prop :=
  exists e, In e edges /\ joins a b e = true.

(** [b] can be reached from [a] along edges of [edges]. *)
Inductive reach (edges : list edge) (a : string) : string -> Prop :=
| reach_here : reach edges a a
| reach_next (b c : string) :
    reach edges a b -> linked edges b c -> reach edges a c.

(** The two [ValueError]s of [int(text)]: the text is not a literal, or its
    digit run is too long. *)
Definition int_error (text : string) (e : exn) : Prop :=
  e = InvalidLiteral text
  \/ exists digits, e = DigitLimit digits /\ (max_str_digits < digits)%nat.

(** Label [a] comes before label [b] in the list [l]. *)
Definition before (a b : string) (l : list string) : Prop :=
  exists l1 l2 l3, l = l1 ++ a :: l2 ++ b :: l3.

(** The frame of [example_network]. *)
Definition example_frame : DataFrame :=
  mkDataFrame vertices_name vertices_name
    [[0; 14; 10; 19; 0; 0; 0];
     [14; 0; 0; 15; 18; 0; 0];
     [10; 0; 0; 26; 0; 29; 0];
     [19; 15; 26; 0; 16; 17; 21];
     [0; 18; 0; 16; 0; 0; 9];
     [0; 0; 29; 17; 0; 0; 25];
     [0; 0; 0; 21; 9; 25; 0]]%Z.

(** A is joined to every other vertex by an edge of cost 1; the edges B-C,
    C-D and D-E cost 2^62 each, so that the distinct edges cost more than
    2^63 in all. *)
Definition overflow_network : string :=
"-,1,1,1,1,1,1
1,-,4611686018427387904,-,-,-,-
1,4611686018427387904,-,4611686018427387904,-,-,-
1,-,4611686018427387904,-,4611686018427387904,-,-
1,-,-,4611686018427387904,-,-,-
1,-,-,-,-,-,-
1,-,-,-,-,-,-".

(** A has no edge; B is joined to every other vertex. *)
Definition orphan_network : string :=
"-,-,-,-,-,-,-
-,-,1,2,3,4,5
-,1,-,-,-,-,-
-,2,-,-,-,-,-
-,3,-,-,-,-,-
-,4,-,-,-,-,-
-,5,-,-,-,-,-".

Definition orphan_frame : DataFrame :=
  mkDataFrame vertices_name vertices_name
    [[0; 0; 0; 0; 0; 0; 0];
     [0; 0; 1; 2; 3; 4; 5];
     [0; 1; 0; 0; 0; 0; 0];
     [0; 2; 0; 0; 0; 0; 0];
     [0; 3; 0; 0; 0; 0; 0];
     [0; 4; 0; 0; 0; 0; 0];
     [0; 5; 0; 0; 0; 0; 0]]%Z.

Definition orphan_candidates : list edge :=
  [Edge "B" "C" 1; Edge "D" "B" 2; Edge "E" "B" 3; Edge "F" "B" 4;
   Edge "G" "B" 5]%Z.

(** One line of seven cells. *)
Definition one_row_network : string := "-,1,2,3,4,5,6".

(** A star: A is joined to every other vertex. *)
Definition star_network : string :=
"-,1,2,3,4,5,6
1,-,-,-,-,-,-
2,-,-,-,-,-,-
3,-,-,-,-,-,-
4,-,-,-,-,-,-
5,-,-,-,-,-,-
6,-,-,-,-,-,-".

(** The path A-B-C-D-E, listed so that each pass of the connectivity scan
    gains one vertex. *)
Definition chain_edges : list edge :=
  [Edge "A" "B" 1; Edge "D" "E" 1; Edge "C" "D" 1; Edge "B" "C" 1]%Z.

(* ================================================================= *)
(** * Properties *)

(** ** The outcome monad *)

Lemma bind_Done_inv {A B : Type} (m : outcome A) (k : A -> outcome B) (b : B) :
  bind m k = Done b -> exists a, m = Done a /\ k a = Done b.
Proof.
  destruct m as [a | e | | | ]; simpl; intros H; try discriminate.
  exists a; split; [reflexivity | exact H].
Qed.

Lemma mapM_Done_Forall2 {A B : Type} (f : A -> outcome B) (l : list A) (ys : list B) :
  mapM f l = Done ys -> Forall2 (fun x y => f x = Done y) l ys.
Proof.
  revert ys; induction l as [| x l IH]; simpl; intros ys H.
  - inversion H; constructor.
  - apply bind_Done_inv in H as [y [Hy H]].
    apply bind_Done_inv in H as [ys' [Hys H]].
    inversion H; subst. constructor; [exact Hy | apply IH; exact Hys].
Qed.

Lemma mapM_Done_length {A B : Type} (f : A -> outcome B) (l : list A) (ys : list B) :
  mapM f l = Done ys -> length ys = length l.
Proof.
  intros H. apply mapM_Done_Forall2 in H.
  induction H; simpl; congruence.
Qed.

(** A comprehension over a body that either returns or raises does the
    same. *)
Lemma mapM_Done_or_Raise {A B : Type} (f : A -> outcome B) (l : list A) :
  (forall x, In x l -> (exists y, f x = Done y) \/ (exists e, f x = Raise e)) ->
  (exists ys, mapM f l = Done ys)
  \/ (exists x e, In x l /\ f x = Raise e /\ mapM f l = Raise e).
Proof.
  induction l as [| x l IH]; simpl; intros Hf.
  - left; eexists; reflexivity.
  - destruct (Hf x (or_introl eq_refl)) as [[y Hy] | [e He]].
    + rewrite Hy; simpl.
      destruct IH as [[ys Hys] | [x' [e [Hin [He Hm]]]]].
      * intros x' Hx'; apply Hf; right; exact Hx'.
      * left. rewrite Hys; simpl. eexists; reflexivity.
      * right. exists x', e. rewrite Hm; simpl. auto.
    + right. exists x, e. rewrite He; simpl. auto.
Qed.

(** ** 64-bit arithmetic *)

Lemma pow64_nonzero : (2 ^ 64 <> 0)%Z.
Proof. vm_compute. discriminate. Qed.

Lemma wrap64_mod (x : Z) : (wrap64 x mod 2 ^ 64 = x mod 2 ^ 64)%Z.
Proof.
  unfold wrap64. rewrite Zminus_mod_idemp_l. f_equal. lia.
Qed.

Lemma wrap64_eq (x y : Z) :
  (x mod 2 ^ 64 = y mod 2 ^ 64)%Z -> wrap64 x = wrap64 y.
Proof.
  intros H. unfold wrap64. f_equal.
  rewrite <- (Zplus_mod_idemp_l x), <- (Zplus_mod_idemp_l y), H. reflexivity.
Qed.

Lemma wrap64_add_l (a b : Z) : wrap64 (wrap64 a + b) = wrap64 (a + b).
Proof.
  apply wrap64_eq. rewrite <- Zplus_mod_idemp_l, wrap64_mod, Zplus_mod_idemp_l.
  reflexivity.
Qed.

Lemma wrap64_sub (a b : Z) : wrap64 (wrap64 a - wrap64 b) = wrap64 (a - b).
Proof.
  apply wrap64_eq. rewrite Zminus_mod, !wrap64_mod, <- Zminus_mod. reflexivity.
Qed.

(** A value in the 64-bit range is left as it is. *)
Lemma wrap64_small (z : Z) : in_int64 z = true -> wrap64 z = z.
Proof.
  unfold in_int64, wrap64. intros H. apply andb_true_iff in H as [H1 H2].
  apply Z.leb_le in H1. apply Z.ltb_lt in H2.
  assert (E : (2 ^ 64 = 2 ^ 63 + 2 ^ 63)%Z) by reflexivity.
  rewrite Z.mod_small; [lia |]. rewrite E. lia.
Qed.

(** ** [network_cost] *)

Lemma network_cost_from (graph : list edge) (acc : Z) :
  fold_left (fun sum e => int64_add sum (edge_cost e)) graph (wrap64 acc)
  = wrap64 (acc + sum_costs graph).
Proof.
  revert acc; induction graph as [| e g IH]; intros acc.
  - simpl. f_equal. lia.
  - change (sum_costs (e :: g)) with (edge_cost e + sum_costs g)%Z.
    cbn [fold_left]. unfold int64_add at 2. rewrite wrap64_add_l, IH.
    f_equal. lia.
Qed.

(** The cost of a network is the sum of its costs reduced to 64 bits. *)
Lemma network_cost_sum (graph : list edge) :
  network_cost graph = wrap64 (sum_costs graph).
Proof.
  unfold network_cost. change 0%Z with (wrap64 0) at 1.
  rewrite network_cost_from. reflexivity.
Qed.

(** ** The orchestrator returns the difference of the two sums *)

Ltac bind_inv H :=
  repeat match type of H with
         | bind _ _ = Done _ =>
             let a := fresh "a" in
             let Ha := fresh "Ha" in
             apply bind_Done_inv in H as [a [Ha H]]
         end.

(** C1, as the code has it: whenever [maximum_saving] completes, its result
    is the sum of the costs of the distinct edges of the parsed matrix minus
    the sum of the costs of the repaired candidate set, reduced to a signed
    64-bit value by wrap-around; it is exactly that difference whenever the
    difference fits in 64 bits; and it is negative for some input. *)
Theorem maximum_saving_total_minus_minimal :
  (forall fuel text v,
      maximum_saving fuel text = Done v ->
      exists df repaired,
        wrangle text vertices_name = Done df
        /\ repaired_edges fuel vertices_name df = Done repaired
        /\ v = wrap64 (sum_costs (concat (get_unique_nodes df))
                       - sum_costs repaired)
        /\ (in_int64 (sum_costs (concat (get_unique_nodes df))
                        - sum_costs repaired) = true ->
            v = (sum_costs (concat (get_unique_nodes df))
                 - sum_costs repaired)%Z))
  /\ (exists text v, maximum_saving 1 text = Done v /\ (v < 0)%Z).
Proof.
  split.
  - intros fuel text v H. unfold maximum_saving in H.
    bind_inv H. destruct a2 as [added final].
    inversion H; subst v; clear H.
    exists a, final. split; [exact Ha |]. split.
    + unfold repaired_edges. rewrite Ha0; cbn [bind]. rewrite Ha1; cbn [bind].
      rewrite Ha2; cbn [bind]. reflexivity.
    + assert (E : int64_sub (network_cost (concat (get_unique_nodes a)))
                    (network_cost final)
                  = wrap64 (sum_costs (concat (get_unique_nodes a))
                            - sum_costs final)).
      { unfold int64_sub. rewrite !network_cost_sum. apply wrap64_sub. }
      split; [exact E |]. intros Hr. rewrite E. apply wrap64_small. exact Hr.
  - exists overshoot_network, (-100)%Z. split; [vm_compute; reflexivity | lia].
Qed.

(** The network of the example usage: the saving is 219 - 81. *)
Lemma maximum_saving_total_minus_minimal_witness :
  maximum_saving 1 example_network = Done 138%Z
  /\ exists df repaired,
       wrangle example_network vertices_name = Done df
       /\ repaired_edges 1 vertices_name df = Done repaired
       /\ 138%Z = wrap64 (sum_costs (concat (get_unique_nodes df))
                          - sum_costs repaired)
       /\ (in_int64 (sum_costs (concat (get_unique_nodes df))
                       - sum_costs repaired) = true ->
           138%Z = (sum_costs (concat (get_unique_nodes df))
                    - sum_costs repaired)%Z).
Proof.
  split.
  - vm_compute; reflexivity.
  - apply (proj1 maximum_saving_total_minus_minimal 1%nat example_network 138%Z).
    vm_compute; reflexivity.
Defined.

(** C1, counterexample: in [overflow_network] the distinct edges cost
    3 * 2^62 + 6 and the cheapest edges 6, and no repair is needed; the sum
    of the distinct edges wraps around and the result is -2^62, not
    3 * 2^62. *)
Lemma maximum_saving_overflow_counterexample :
  exists df repaired,
    wrangle overflow_network vertices_name = Done df
    /\ repaired_edges 0 vertices_name df = Done repaired
    /\ (sum_costs (concat (get_unique_nodes df)) - sum_costs repaired
        = 3 * 2 ^ 62)%Z
    /\ maximum_saving 0 overflow_network = Done (- 2 ^ 62)%Z
    /\ maximum_saving 0 overflow_network
       <> Done (sum_costs (concat (get_unique_nodes df)) - sum_costs repaired)%Z.
Proof.
  do 2 eexists.
  split; [vm_compute; reflexivity |].
  split; [vm_compute; reflexivity |].
  split; [vm_compute; reflexivity |].
  split; [vm_compute; reflexivity |].
  vm_compute. discriminate.
Qed.

(** ** The concrete scenario *)

(** C9: for the seven-vertex matrix of the specification, over the labels
    A to G, the cost of the distinct-edge set is 219. *)
Theorem scenario_total_cost_219 :
  exists df,
    wrangle scenario_network vertices_name = Done df
    /\ network_cost (concat (get_unique_nodes df)) = 219%Z.
Proof.
  eexists. split; [vm_compute; reflexivity | vm_compute; reflexivity].
Qed.

(** ** A matrix without edges *)

Lemma row_edges_nil (df : DataFrame) (row : string) (cols : list string) :
  (forall c, In c cols -> row <> c -> loc df row c = 0%Z) ->
  row_edges df row cols = [].
Proof.
  induction cols as [| c cols IH]; simpl; intros H; [reflexivity |].
  destruct (String.eqb_spec row c) as [E | N].
  - apply IH. intros c' Hc'; apply H; right; exact Hc'.
  - rewrite (H c (or_introl eq_refl) N). simpl.
    apply IH. intros c' Hc'; apply H; right; exact Hc'.
Qed.

Lemma get_nodes_nil (df : DataFrame) :
  (forall r c, In r (index df) -> In c (columns df) -> r <> c -> loc df r c = 0%Z) ->
  get_nodes df = [].
Proof.
  intros H. unfold get_nodes.
  assert (E : forall rows, incl rows (index df) ->
            filter nonempty
              (map (fun row => row_edges df row (columns df)) rows) = []).
  { induction rows as [| r rows IH]; simpl; intros Hi; [reflexivity |].
    rewrite row_edges_nil.
    - simpl. apply IH. intros x Hx; apply Hi; right; exact Hx.
    - intros c Hc Hn. apply H; auto. apply Hi; left; reflexivity. }
  rewrite E by apply incl_refl. reflexivity.
Qed.

(** C10: [get_connected_nodes] raises [IndexError] on the empty list, and
    so does [maximum_saving] on every matrix whose off-diagonal cells are
    all zero. *)
Theorem maximum_saving_fails_without_edges :
  get_connected_nodes [] = Raise IndexOutOfRange
  /\ exn_name IndexOutOfRange = "IndexError"
  /\ forall fuel text df,
      wrangle text vertices_name = Done df ->
      (forall r c, In r (index df) -> In c (columns df) -> r <> c ->
                   loc df r c = 0%Z) ->
      maximum_saving fuel text = Raise IndexOutOfRange.
Proof.
  split; [reflexivity |]. split; [reflexivity |].
  intros fuel text df Hw Hz. unfold maximum_saving.
  rewrite Hw; simpl. rewrite (get_nodes_nil df Hz). reflexivity.
Qed.

(** The matrix of seven rows of markers. *)
Lemma maximum_saving_fails_without_edges_witness :
  maximum_saving 1 empty_network = Raise IndexOutOfRange.
Proof.
  apply (proj2 (proj2 maximum_saving_fails_without_edges) 1%nat empty_network
           (mkDataFrame vertices_name vertices_name
              (repeat (repeat 0%Z 7) 7))).
  - vm_compute; reflexivity.
  - intros r c Hr Hc _. simpl in Hr, Hc.
    repeat (destruct Hr as [<- | Hr];
            [repeat (destruct Hc as [<- | Hc]; [reflexivity |]); contradiction |]).
    contradiction.
Defined.

(** ** Parsing *)

Lemma int_error_name (text : string) (e : exn) :
  int_error text e -> exn_name e = "ValueError".
Proof. intros [-> | [n [-> _]]]; reflexivity. Qed.

Lemma py_int_cases (text : string) :
  (exists z, py_int text = Done z)
  \/ (exists e, py_int text = Raise e /\ int_error text e).
Proof.
  unfold py_int.
  destruct (match skip_spaces text with
            | String c rest =>
                if Ascii.eqb c "+"%char then (1%Z, rest)
                else if Ascii.eqb c "-"%char then ((-1)%Z, rest)
                else (1%Z, skip_spaces text)
            | EmptyString => (1%Z, skip_spaces text)
            end) as [sign body].
  destruct (scan_digits AtStart 0 0 body) as [[[v digits] rest] |];
    [| right; eexists; split; [reflexivity | left; reflexivity]].
  destruct (Nat.ltb_spec max_str_digits digits) as [Hlt | Hge].
  - right. eexists. split; [reflexivity |]. right. exists digits. auto.
  - destruct (skip_spaces rest); [left; eexists; reflexivity |].
    right; eexists; split; [reflexivity | left; reflexivity].
Qed.

Lemma parse_cell_other (tok : string) :
  tok <> "" -> tok <> "-" -> parse_cell tok = py_int tok.
Proof.
  intros H1 H2. unfold parse_cell, texttoint.
  destruct (String.eqb_spec tok "-"); [contradiction |].
  destruct (String.eqb_spec tok ""); [contradiction |].
  reflexivity.
Qed.

Lemma parse_cell_cases (tok : string) :
  (exists z, parse_cell tok = Done z)
  \/ (exists e, parse_cell tok = Raise e /\ py_int tok = Raise e
                /\ int_error tok e).
Proof.
  unfold parse_cell, texttoint.
  destruct (String.eqb tok "-"); simpl; [left; eexists; reflexivity |].
  destruct (String.eqb tok ""); [left; eexists; reflexivity |].
  destruct (py_int_cases tok) as [[z Hz] | [e [Hr He]]].
  - left; exists z; exact Hz.
  - right; exists e; auto.
Qed.

Lemma parse_row_cases (row : list string) :
  (exists zs, mapM parse_cell row = Done zs /\ length zs = length row)
  \/ (exists tok e, In tok row
                    /\ py_int tok = Raise e /\ int_error tok e
                    /\ mapM parse_cell row = Raise e).
Proof.
  destruct (mapM_Done_or_Raise parse_cell row) as [[zs Hzs] | [tok [e [Hin [He Hm]]]]].
  - intros tok _. destruct (parse_cell_cases tok) as [H | [e [H _]]]; eauto.
  - left. exists zs. split; [exact Hzs | eapply mapM_Done_length; exact Hzs].
  - right. exists tok, e.
    destruct (parse_cell_cases tok) as [[z Hz] | [e' [Hr [Hp Hi]]]]; [congruence |].
    rewrite Hr in He; inversion He; subst e'. auto.
Qed.

Lemma parse_rows_cases (rows : list (list string)) :
  (exists parsed,
      mapM (mapM parse_cell) rows = Done parsed
      /\ length parsed = length rows
      /\ row_width parsed = row_width rows)
  \/ (exists row tok e,
         In row rows /\ In tok row
         /\ py_int tok = Raise e /\ int_error tok e
         /\ mapM (mapM parse_cell) rows = Raise e).
Proof.
  induction rows as [| row rows IH]; simpl.
  - left. exists []. auto.
  - destruct (parse_row_cases row) as [[zs [Hzs Hlen]] | [tok [e [Hin [Hp [Hi Hm]]]]]].
    + rewrite Hzs; simpl.
      destruct IH as [[parsed [Hm [Hl Hw]]] | [row' [tok [e [Hr [Hin [Hp [Hi Hm]]]]]]]].
      * left. exists (zs :: parsed). rewrite Hm; simpl.
        repeat split; congruence.
      * right. exists row', tok, e. rewrite Hm; simpl. auto 6.
    + right. exists row, tok, e. rewrite Hm; simpl. auto 6.
Qed.

(** The first token that [int()] rejects stops [wrangle] with the
    [ValueError] of [int()]. *)
Lemma wrangle_malformed (text : string) (names : list string) :
  (exists row tok e, In row (text_rows text) /\ In tok row
                     /\ tok <> "" /\ tok <> "-"
                     /\ py_int tok = Raise e) ->
  exists row' tok' e', In row' (text_rows text) /\ In tok' row'
                       /\ py_int tok' = Raise e' /\ int_error tok' e'
                       /\ wrangle text names = Raise e'.
Proof.
  intros [row [tok [e [Hrow [Htok [Hne [Hnm Hp]]]]]]].
  unfold wrangle. fold (text_rows text).
  destruct (parse_rows_cases (text_rows text))
    as [[parsed [Hm _]] | [row' [tok' [e' [Hr [Hin [Hp' [Hi Hm]]]]]]]].
  - exfalso. apply mapM_Done_Forall2 in Hm.
    revert Hrow. induction Hm as [| r p rs ps Hrp _ IH]; simpl; [tauto |].
    intros [<- | Hrow]; [| exact (IH Hrow)].
    apply mapM_Done_Forall2 in Hrp. clear IH.
    revert Htok. induction Hrp as [| t z ts zs Htz _ IH]; simpl; [tauto |].
    intros [<- | Htok]; [| exact (IH Htok)].
    rewrite (parse_cell_other _ Hne Hnm) in Htz. congruence.
  - exists row', tok', e'. rewrite Hm. simpl. auto 6.
Qed.

(** A text of two or more rows that does not have one row per label, or a
    text whose widest row does not have one cell per label, is rejected. *)
Lemma wrangle_shape (text : string) (names : list string) :
  text_rows text <> [] ->
  ((2 <= length (text_rows text))%nat
   /\ length (text_rows text) <> length names)
  \/ row_width (text_rows text) <> length names ->
  exists e, wrangle text names = Raise e /\ exn_name e = "ValueError".
Proof.
  intros Hne Hshape. unfold wrangle. fold (text_rows text).
  destruct (parse_rows_cases (text_rows text))
    as [[parsed [Hm [Hl Hw]]] | [row' [tok' [e' [_ [_ [_ [Hi Hm]]]]]]]].
  - rewrite Hm; cbn [bind]. unfold pd_DataFrame.
    destruct parsed as [| p parsed].
    + destruct (text_rows text); [contradiction | discriminate].
    + rewrite Hw.
      destruct (Nat.eqb_spec (row_width (text_rows text)) (length names)) as [Ew | Nw];
        cbn [negb]; [| eexists; split; reflexivity].
      destruct Hshape as [[H2 Hlen] | Hwid]; [| contradiction].
      destruct parsed as [| q parsed]; [simpl in Hl; lia |].
      rewrite Hl.
      destruct (Nat.eqb_spec (length (text_rows text)) (length names)) as [El | Nl];
        cbn [negb]; [contradiction | eexists; split; reflexivity].
  - rewrite Hm; cbn [bind]. exists e'. split; [reflexivity |].
    eapply int_error_name; exact Hi.
Qed.

(** A single row of 64-bit cells, one per label, is repeated for every
    label. *)
Lemma wrangle_one_row (text : string) (names : list string)
  (line : list string) (zs : list Z) :
  text_rows text = [line] ->
  mapM parse_cell line = Done zs ->
  length zs = length names ->
  forallb in_int64 zs = true ->
  wrangle text names
  = Done (mkDataFrame names names (repeat zs (length names))).
Proof.
  intros Hrows Hline Hlen Hfit. unfold wrangle. fold (text_rows text).
  rewrite Hrows. cbn [mapM]. rewrite Hline. cbn [bind mapM].
  unfold pd_DataFrame. cbn [row_width fold_right].
  rewrite Nat.max_0_r, Hlen, Nat.eqb_refl. cbn [negb]. rewrite Hfit.
  reflexivity.
Qed.

(** C7, as the code has it: an empty token and the marker ["-"] give 0;
    every other token is converted by [int()]; a token that [int()] rejects
    stops the parse with the [ValueError] of [int()], which carries the text
    of the token or the number of its digits, and no position; a text of two
    or more rows whose row count differs from the number of labels, or a
    text whose widest row differs from it, stops the frame constructor with
    a [ValueError], whereas a single row of the right width is accepted and
    repeated for every label; a failed parse returns no frame. *)
Theorem wrangle_cells_and_failures :
  parse_cell "" = Done 0%Z
  /\ parse_cell "-" = Done 0%Z
  /\ (forall tok, tok <> "" -> tok <> "-" -> parse_cell tok = py_int tok)
  /\ (forall text names,
        (exists row tok e, In row (text_rows text) /\ In tok row
                           /\ tok <> "" /\ tok <> "-"
                           /\ py_int tok = Raise e) ->
        exists row' tok' e',
          In row' (text_rows text) /\ In tok' row'
          /\ py_int tok' = Raise e'
          /\ int_error tok' e'
          /\ wrangle text names = Raise e'
          /\ exn_name e' = "ValueError")
  /\ (forall text names,
        text_rows text <> [] ->
        ((2 <= length (text_rows text))%nat
         /\ length (text_rows text) <> length names)
        \/ row_width (text_rows text) <> length names ->
        exists e, wrangle text names = Raise e /\ exn_name e = "ValueError")
  /\ (forall text names line zs,
        text_rows text = [line] ->
        mapM parse_cell line = Done zs ->
        length zs = length names ->
        forallb in_int64 zs = true ->
        wrangle text names
        = Done (mkDataFrame names names (repeat zs (length names))))
  /\ (forall text names e df,
        wrangle text names = Raise e -> wrangle text names <> Done df).
Proof.
  split; [reflexivity |]. split; [reflexivity |].
  split; [exact parse_cell_other |].
  split.
  - intros text names H.
    destruct (wrangle_malformed text names H)
      as [row' [tok' [e' [Hr [Ht [Hp [Hi Hw]]]]]]].
    exists row', tok', e'. repeat split; try assumption.
    eapply int_error_name; exact Hi.
  - split; [exact wrangle_shape |]. split; [exact wrangle_one_row |].
    intros text names e df H. rewrite H. discriminate.
Qed.

(** A text with the token [x], and a two-row text parsed for seven labels. *)
Lemma wrangle_cells_and_failures_witness :
  (exists row' tok' e',
      In row' (text_rows malformed_network) /\ In tok' row'
      /\ py_int tok' = Raise e'
      /\ int_error tok' e'
      /\ wrangle malformed_network ["A"; "B"] = Raise e'
      /\ exn_name e' = "ValueError")
  /\ (exists e, wrangle two_vertex_network vertices_name = Raise e
                /\ exn_name e = "ValueError")
  /\ wrangle one_row_network vertices_name
     = Done (mkDataFrame vertices_name vertices_name
               (repeat [0; 1; 2; 3; 4; 5; 6]%Z (length vertices_name))).
Proof.
  split; [| split].
  - apply (proj1 (proj2 (proj2 (proj2 wrangle_cells_and_failures)))
             malformed_network ["A"; "B"]).
    exists ["-"; "x"], "x", (InvalidLiteral "x").
    repeat split; try (vm_compute; auto; fail); discriminate.
  - apply (proj1 (proj2 (proj2 (proj2 (proj2 wrangle_cells_and_failures))))
             two_vertex_network vertices_name).
    + vm_compute; discriminate.
    + left. vm_compute. split; [lia | discriminate].
  - apply (proj1 (proj2 (proj2 (proj2 (proj2 (proj2 wrangle_cells_and_failures)))))
             one_row_network vertices_name ["-"; "1"; "2"; "3"; "4"; "5"; "6"]
             [0; 1; 2; 3; 4; 5; 6]%Z);
      vm_compute; reflexivity.
Defined.

(** C7, counterexample: the malformed token ["x"] stops the parse with the
    [ValueError] of [int()], and no exception named [ParseError] is raised;
    a text of one row, parsed for seven labels, is not rejected. *)
Lemma wrangle_malformed_counterexample :
  wrangle malformed_network ["A"; "B"] = Raise (InvalidLiteral "x")
  /\ exn_name (InvalidLiteral "x") = "ValueError"
  /\ ~ (exists e, wrangle malformed_network ["A"; "B"] = Raise e
                  /\ exn_name e = "ParseError")
  /\ length (text_rows one_row_network) <> length vertices_name
  /\ exists df, wrangle one_row_network vertices_name = Done df.
Proof.
  split; [vm_compute; reflexivity |]. split; [reflexivity |].
  split.
  - intros [e [He Hn]].
    assert (E : wrangle malformed_network ["A"; "B"] = Raise (InvalidLiteral "x"))
      by (vm_compute; reflexivity).
    rewrite E in He. inversion He; subst e. discriminate Hn.
  - split; [vm_compute; discriminate |].
    eexists. vm_compute. reflexivity.
Qed.

(** ** The label list *)

Lemma maximum_saving_unfold (fuel : nat) (text : string) :
  maximum_saving fuel text = spec_maximumSaving vertices_name fuel text.
Proof.
  unfold maximum_saving, spec_maximumSaving, repaired_edges.
  destruct (wrangle text vertices_name) as [df | | | |]; cbn [bind];
    try reflexivity.
  destruct (get_shortest_edges (get_nodes df)) as [cand | | | |];
    cbn [bind]; try reflexivity.
  destruct (get_connected_nodes (find_unique_node cand)) as [conn | | | |];
    cbn [bind]; try reflexivity.
  destruct (add_isolated_node fuel vertices_name (get_nodes df)
              (find_unique_node cand) (isolated_of vertices_name conn) conn)
    as [[added final] | | | |]; cbn [bind]; reflexivity.
Qed.

(** C8, as the code has it: [maximum_saving] takes the matrix text only and
    runs the fixed sequence over the seven labels A to G that it fixes
    itself; a text of two or more rows whose row count is not seven, or a
    text whose widest row is not seven cells, is rejected with a
    [ValueError]. *)
Theorem maximum_saving_fixed_labels :
  vertices_name = ["A"; "B"; "C"; "D"; "E"; "F"; "G"]
  /\ (forall fuel text,
        maximum_saving fuel text = spec_maximumSaving vertices_name fuel text)
  /\ (forall fuel text,
        text_rows text <> [] ->
        ((2 <= length (text_rows text))%nat
         /\ length (text_rows text) <> 7%nat)
        \/ row_width (text_rows text) <> 7%nat ->
        exists e, maximum_saving fuel text = Raise e /\ exn_name e = "ValueError").
Proof.
  split; [reflexivity |]. split; [exact maximum_saving_unfold |].
  intros fuel text Hne Hshape.
  destruct (wrangle_shape text vertices_name Hne Hshape) as [e [He Hn]].
  exists e. split; [| exact Hn].
  unfold maximum_saving. rewrite He. reflexivity.
Qed.

(** A two-row text. *)
Lemma maximum_saving_fixed_labels_witness :
  exists e, maximum_saving 1 two_vertex_network = Raise e
            /\ exn_name e = "ValueError".
Proof.
  apply (proj2 (proj2 maximum_saving_fixed_labels) 1%nat two_vertex_network).
  - vm_compute; discriminate.
  - left. vm_compute. split; [lia | discriminate].
Defined.

(** C8, counterexample: handed a two-vertex matrix, for which the sequence
    run over the caller's labels A, B returns 0, [maximum_saving] raises. *)
Lemma maximum_saving_labels_counterexample :
  spec_maximumSaving ["A"; "B"] 1 two_vertex_network = Done 0%Z
  /\ maximum_saving 1 two_vertex_network = Raise ShapeMismatch
  /\ maximum_saving 1 two_vertex_network
     <> spec_maximumSaving ["A"; "B"] 1 two_vertex_network.
Proof.
  split; [vm_compute; reflexivity |]. split; [vm_compute; reflexivity |].
  vm_compute. discriminate.
Qed.

(** ** Connectivity repair *)

(** The expression [vertices[node_names.index(tmp)][1]]: when the entry of
    [vertices] at the position of [tmp] in [node_names] is missing or has
    fewer than two edges, the repair stops with [IndexError]. *)
Lemma add_isolated_node_short_entry
  (fuel : nat) (node_names : list string) (vertices : list (list edge))
  (shortest_edges : list edge) (tmp : string) (rest connected : list string)
  (i : nat) :
  index_of tmp node_names = Some i ->
  (forall line, nth_error vertices i = Some line -> (length line < 2)%nat) ->
  add_isolated_node (S fuel) node_names vertices shortest_edges
    (tmp :: rest) connected = Raise IndexOutOfRange
  /\ exn_name IndexOutOfRange = "IndexError".
Proof.
  intros Hi Hshort. split; [| reflexivity].
  unfold add_isolated_node. cbn [add_isolated_loop].
  unfold list_index. rewrite Hi. cbn [bind]. unfold item at 1.
  destruct (nth_error vertices i) as [line |] eqn:Hline; [| reflexivity].
  cbn [bind]. specialize (Hshort line eq_refl).
  unfold item.
  destruct line as [| e1 [| e2 line]]; simpl in *; try reflexivity; lia.
Qed.

(** C6, counterexample: in [single_edge_network] the first isolated vertex
    is C, whose only edge is C-D, and the computation stops with
    [IndexError]; no exception named [InsufficientEdgesError] is raised. *)
Lemma insufficient_edges_counterexample :
  exists df cand conn,
    wrangle single_edge_network vertices_name = Done df
    /\ get_shortest_edges (get_nodes df) = Done cand
    /\ get_connected_nodes (find_unique_node cand) = Done conn
    /\ isolated_of vertices_name conn = ["C"; "D"]
    /\ row_edges df "C" (columns df) = [Edge "C" "D" 1%Z]
    /\ maximum_saving 1 single_edge_network = Raise IndexOutOfRange
    /\ exn_name IndexOutOfRange = "IndexError"
    /\ ~ (exists e, maximum_saving 1 single_edge_network = Raise e
                    /\ exn_name e = "InsufficientEdgesError").
Proof.
  do 3 eexists.
  split; [vm_compute; reflexivity |].
  split; [vm_compute; reflexivity |].
  split; [vm_compute; reflexivity |].
  split; [vm_compute; reflexivity |].
  split; [vm_compute; reflexivity |].
  split; [vm_compute; reflexivity |].
  split; [reflexivity |].
  intros [e [He Hn]].
  assert (E : maximum_saving 1 single_edge_network = Raise IndexOutOfRange)
    by (vm_compute; reflexivity).
  rewrite E in He. inversion He; subst e. discriminate Hn.
Qed.

(** ** Duplicate removal *)

Lemma remove_first_length (e : edge) (l : list edge) :
  (length (remove_first e l) <= length l)%nat.
Proof.
  induction l as [| y l IH]; simpl; [lia |].
  destruct (edge_eqb e y); simpl; lia.
Qed.

(** The iteration budget of [find_unique_node] is never the reason the loop
    stops: one step per element of the initial list is enough. *)
Lemma find_unique_loop_fuel (fuel extra i : nat) (edges : list edge)
  (selected : list string) :
  (length edges <= i + fuel)%nat ->
  find_unique_loop (fuel + extra) i edges selected
  = find_unique_loop fuel i edges selected.
Proof.
  revert extra i edges selected.
  induction fuel as [| fuel IH]; intros extra i edges selected Hlen.
  - simpl. destruct extra as [| extra]; [reflexivity |]. simpl.
    destruct (nth_error edges i) eqn:E; [| reflexivity].
    assert (Hlt : (i < length edges)%nat)
      by (apply nth_error_Some; congruence).
    lia.
  - simpl. destruct (nth_error edges i) as [e |]; [| reflexivity].
    destruct (recorded (edge_row e) (edge_column e) selected).
    + apply IH. pose proof (remove_first_length e edges). lia.
    + apply IH. lia.
Qed.

(** C3, at a failing input: in [overshoot_network] the vertices A, B and
    C, D choose each other.  Removing B's copy of A-B moves C's edge into the
    position the iterator has just left, so it is never examined or recorded,
    and D's copy of C-D is kept beside it. *)
Theorem find_unique_node_keeps_duplicate :
  exists df cand,
    wrangle overshoot_network vertices_name = Done df
    /\ get_shortest_edges (get_nodes df) = Done cand
    /\ cand = [Edge "A" "B" 1; Edge "B" "A" 1; Edge "C" "D" 100;
               Edge "D" "C" 100; Edge "E" "A" 2; Edge "F" "A" 3;
               Edge "G" "A" 4]%Z
    /\ find_unique_node cand
       = [Edge "A" "B" 1; Edge "C" "D" 100; Edge "D" "C" 100;
          Edge "E" "A" 2; Edge "F" "A" 3; Edge "G" "A" 4]%Z
    /\ count_pair "C" "D" (find_unique_node cand) = 2%nat.
Proof.
  do 2 eexists.
  split; [vm_compute; reflexivity |].
  split; [vm_compute; reflexivity |].
  split; [reflexivity |].
  split; vm_compute; reflexivity.
Qed.

(** ** The repair loop need not stop *)

Lemma connect_step_repeat (c : list string) (name : string * string) (k : nat) :
  connect_step c name = c -> fold_left connect_step (repeat name k) c = c.
Proof.
  intros H. induction k as [| k IH]; simpl; [reflexivity |].
  rewrite H. exact IH.
Qed.

(** Appending copies of an edge that leaves both passes unchanged does not
    change the connected set. *)
Lemma get_connected_nodes_repeat (first : edge) (rest : list edge)
  (e : edge) (k : nat) :
  let names := map endpoints (first :: rest) in
  let c1 := fold_left connect_step names [edge_row first; edge_column first] in
  let c2 := fold_left connect_step names c1 in
  connect_step c1 (endpoints e) = c1 ->
  connect_step c2 (endpoints e) = c2 ->
  get_connected_nodes ((first :: rest) ++ repeat e k) = Done c2.
Proof.
  intros names c1 c2 H1 H2.
  unfold get_connected_nodes. cbn [app item nth_error bind seq fold_left].
  change (fun node : edge => (edge_row node, edge_column node)) with endpoints.
  assert (E : map endpoints (first :: rest ++ repeat e k)
              = names ++ repeat (endpoints e) k).
  { unfold names. change (first :: rest ++ repeat e k)
      with ((first :: rest) ++ repeat e k).
    rewrite map_app, map_repeat. reflexivity. }
  rewrite E. rewrite !fold_left_app.
  fold c1. rewrite (connect_step_repeat c1 _ k H1).
  fold c2. rewrite (connect_step_repeat c2 _ k H2). reflexivity.
Qed.

Lemma looping_loop (fuel k : nat) :
  add_isolated_loop fuel vertices_name (get_nodes looping_frame)
    (looping_candidates ++ repeat looping_edge k) ["D"; "E"; "F"]
  = OutOfFuel.
Proof.
  revert k. induction fuel as [| fuel IH]; intros k; [reflexivity |].
  cbn [add_isolated_loop].
  replace (list_index "D" vertices_name) with (Done (A := nat) 3)
    by (vm_compute; reflexivity).
  cbn [bind].
  replace (item (get_nodes looping_frame) 3)
    with (Done [Edge "D" "E" 1%Z; looping_edge]) by (vm_compute; reflexivity).
  cbn [bind].
  replace (item [Edge "D" "E" 1%Z; looping_edge] 1) with (Done looping_edge)
    by reflexivity.
  cbn [bind].
  rewrite <- app_assoc.
  replace (repeat looping_edge k ++ [looping_edge])
    with (repeat looping_edge (S k))
    by (cbn [repeat]; rewrite repeat_cons; reflexivity).
  unfold looping_candidates at 1.
  rewrite get_connected_nodes_repeat; [| vm_compute; reflexivity ..].
  cbn [bind].
  match goal with
  | |- add_isolated_loop _ _ _ _ ?iso = _ =>
      replace iso with ["D"; "E"; "F"] by (vm_compute; reflexivity)
  end.
  apply IH.
Qed.

(** C4, at a failing input: [looping_network] is connected and every
    vertex has an incident edge.  D, E and F are isolated after duplicate
    removal; the loop appends D's second-cheapest edge D-F, which reaches no
    connected vertex, and then appends it again for ever: no iteration
    budget is enough for [maximum_saving] to return. *)
Theorem repair_loop_diverges :
  wrangle looping_network vertices_name = Done looping_frame
  /\ (forall v, In v vertices_name -> has_edge looping_frame v)
  /\ forall fuel, maximum_saving fuel looping_network = OutOfFuel.
Proof.
  split; [vm_compute; reflexivity |]. split.
  - intros v Hv. unfold has_edge. simpl in Hv.
    destruct Hv as [<- | [<- | [<- | [<- | [<- | [<- | [<- | []]]]]]]].
    + exists "B". vm_compute. repeat split; auto; discriminate.
    + exists "A". vm_compute. repeat split; auto; discriminate.
    + exists "A". vm_compute. repeat split; auto; discriminate.
    + exists "E". vm_compute. repeat split; auto 10; discriminate.
    + exists "D". vm_compute. repeat split; auto 10; discriminate.
    + exists "A". vm_compute. repeat split; auto; discriminate.
    + exists "A". vm_compute. repeat split; auto; discriminate.
  - intros fuel. unfold maximum_saving.
    replace (wrangle looping_network vertices_name) with (Done looping_frame)
      by (vm_compute; reflexivity).
    cbn [bind].
    replace (get_shortest_edges (get_nodes looping_frame))
      with (Done [Edge "A" "B" 1; Edge "B" "A" 1; Edge "C" "A" 3;
                  Edge "D" "E" 1; Edge "E" "D" 1; Edge "F" "D" 2;
                  Edge "G" "A" 4]%Z) by (vm_compute; reflexivity).
    cbn [bind].
    match goal with
    | |- context [find_unique_node ?l] =>
        replace (find_unique_node l) with looping_candidates
          by (vm_compute; reflexivity)
    end.
    replace (get_connected_nodes looping_candidates)
      with (Done ["A"; "B"; "C"; "G"]) by (vm_compute; reflexivity).
    cbn [bind].
    replace (isolated_of vertices_name ["A"; "B"; "C"; "G"])
      with ["D"; "E"; "F"] by (vm_compute; reflexivity).
    unfold add_isolated_node.
    pose proof (looping_loop fuel 0) as H. simpl repeat in H.
    rewrite app_nil_r in H. rewrite H. reflexivity.
Qed.

(** ** The sort of [get_nodes] *)

Lemma insert_by_cost_perm (e : edge) (l : list edge) :
  Permutation (insert_by_cost e l) (e :: l).
Proof.
  induction l as [| y l IH]; simpl; [apply Permutation_refl |].
  destruct (Z.leb (edge_cost e) (edge_cost y)); [apply Permutation_refl |].
  eapply Permutation_trans; [apply perm_skip; exact IH | apply perm_swap].
Qed.

Lemma py_sorted_perm (l : list edge) : Permutation (py_sorted l) l.
Proof.
  induction l as [| e l IH]; simpl; [constructor |].
  eapply Permutation_trans; [apply insert_by_cost_perm |].
  apply perm_skip; exact IH.
Qed.

Lemma insert_by_cost_sorted (e : edge) (l : list edge) :
  StronglySorted cost_le l -> StronglySorted cost_le (insert_by_cost e l).
Proof.
  induction 1 as [| y l Hs IH Hy]; simpl.
  - constructor; constructor.
  - destruct (Z.leb_spec (edge_cost e) (edge_cost y)) as [Hle | Hgt].
    + constructor; [constructor; assumption |].
      constructor; [exact Hle |].
      eapply Forall_impl; [| exact Hy].
      intros x Hx; unfold cost_le in *; lia.
    + constructor; [exact IH |].
      eapply Permutation_Forall;
        [apply Permutation_sym; apply insert_by_cost_perm |].
      constructor; [unfold cost_le; lia | exact Hy].
Qed.

(** The entries of a sorted list are in ascending order of cost. *)
Lemma py_sorted_sorted (l : list edge) : StronglySorted cost_le (py_sorted l).
Proof.
  induction l as [| e l IH]; simpl; [constructor |].
  apply insert_by_cost_sorted; exact IH.
Qed.

Lemma insert_by_cost_stable (k : Z) (e : edge) (l : list edge) :
  StronglySorted cost_le l ->
  filter (fun x => Z.eqb (edge_cost x) k) (insert_by_cost e l)
  = filter (fun x => Z.eqb (edge_cost x) k) (e :: l).
Proof.
  induction 1 as [| y l Hs IH Hy]; [reflexivity |].
  cbn [insert_by_cost].
  destruct (Z.leb_spec (edge_cost e) (edge_cost y)) as [Hle | Hgt];
    [reflexivity |].
  cbn [filter] in *. rewrite IH.
  destruct (Z.eqb_spec (edge_cost y) k) as [Ey | Ny]; [| reflexivity].
  destruct (Z.eqb_spec (edge_cost e) k) as [Ee | Ne]; [lia | reflexivity].
Qed.

(** Edges of equal cost keep their order: the sort is stable. *)
Lemma py_sorted_stable (k : Z) (l : list edge) :
  filter (fun x => Z.eqb (edge_cost x) k) (py_sorted l)
  = filter (fun x => Z.eqb (edge_cost x) k) l.
Proof.
  induction l as [| e l IH]; [reflexivity |].
  cbn [py_sorted].
  rewrite insert_by_cost_stable by apply py_sorted_sorted.
  cbn [filter]. rewrite IH. reflexivity.
Qed.

(** Two ascending lists with the same edges of every cost, in the same
    order, are equal: a stable sort has one possible result, which is
    [py_sorted l]. *)
Lemma stable_sort_unique (l1 l2 : list edge) :
  StronglySorted cost_le l1 -> StronglySorted cost_le l2 ->
  (forall k, filter (fun x => Z.eqb (edge_cost x) k) l1
             = filter (fun x => Z.eqb (edge_cost x) k) l2) ->
  l1 = l2.
Proof.
  intros H1. revert l2.
  induction H1 as [| x l1 Hs1 IH Hx]; intros l2 H2 Hf.
  - destruct l2 as [| y l2]; [reflexivity |].
    specialize (Hf (edge_cost y)). simpl in Hf.
    rewrite Z.eqb_refl in Hf. discriminate.
  - destruct H2 as [| y l2 Hs2 Hy].
    + specialize (Hf (edge_cost x)). simpl in Hf.
      rewrite Z.eqb_refl in Hf. discriminate.
    + assert (Hxy : (edge_cost y <= edge_cost x)%Z).
      { pose proof (Hf (edge_cost x)) as E. simpl in E.
        rewrite Z.eqb_refl in E.
        destruct (Z.eqb_spec (edge_cost y) (edge_cost x)) as [Eq | Ne]; [lia |].
        assert (Hin : In x (filter (fun e => Z.eqb (edge_cost e) (edge_cost x)) l2))
          by (rewrite <- E; left; reflexivity).
        apply filter_In in Hin as [Hin _].
        rewrite Forall_forall in Hy. exact (Hy x Hin). }
      assert (Hyx : (edge_cost x <= edge_cost y)%Z).
      { pose proof (Hf (edge_cost y)) as E. simpl in E.
        rewrite Z.eqb_refl in E.
        destruct (Z.eqb_spec (edge_cost x) (edge_cost y)) as [Eq | Ne]; [lia |].
        assert (Hin : In y (filter (fun e => Z.eqb (edge_cost e) (edge_cost y)) l1))
          by (rewrite E; left; reflexivity).
        apply filter_In in Hin as [Hin _].
        rewrite Forall_forall in Hx. exact (Hx y Hin). }
      assert (Exy : x = y).
      { pose proof (Hf (edge_cost x)) as E. simpl in E.
        rewrite Z.eqb_refl in E.
        replace (Z.eqb (edge_cost y) (edge_cost x)) with true in E
          by (symmetry; apply Z.eqb_eq; lia).
        congruence. }
      subst y. f_equal. apply IH; [exact Hs2 |].
      intros k. specialize (Hf k). simpl in Hf.
      destruct (Z.eqb (edge_cost x) k); congruence.
Qed.

Lemma py_sorted_unique (l sorted : list edge) :
  StronglySorted cost_le sorted ->
  (forall k, filter (fun x => Z.eqb (edge_cost x) k) sorted
             = filter (fun x => Z.eqb (edge_cost x) k) l) ->
  sorted = py_sorted l.
Proof.
  intros Hs Hf. apply stable_sort_unique; [exact Hs | apply py_sorted_sorted |].
  intros k. rewrite py_sorted_stable. apply Hf.
Qed.

Lemma cheapest_first_le (m : edge) (l : list edge) :
  cheapest_first m l -> forall x, In x l -> (edge_cost m <= edge_cost x)%Z.
Proof.
  intros [before [after [-> [Hb Ha]]]] x Hx.
  apply in_app_or in Hx as [Hx | [<- | Hx]].
  - specialize (Hb x Hx); lia.
  - lia.
  - exact (Ha x Hx).
Qed.

(** The head of the sorted list is the first cheapest edge of the list. *)
Lemma py_sorted_head (e : edge) (l : list edge) :
  exists m rest, py_sorted (e :: l) = m :: rest /\ cheapest_first m (e :: l).
Proof.
  revert e. induction l as [| y l IH]; intros e.
  - exists e, []. split; [reflexivity |].
    exists [], []. simpl. repeat split; intros x [].
  - destruct (IH y) as [m [rest [Hs Hm]]].
    change (py_sorted (e :: y :: l)) with (insert_by_cost e (py_sorted (y :: l))).
    rewrite Hs. cbn [insert_by_cost].
    destruct (Z.leb_spec (edge_cost e) (edge_cost m)) as [Hle | Hgt].
    + exists e, (m :: rest). split; [reflexivity |].
      exists [], (y :: l). repeat split; [intros x [] |].
      intros x Hx. pose proof (cheapest_first_le m _ Hm x Hx). lia.
    + exists m, (insert_by_cost e rest). split; [reflexivity |].
      destruct Hm as [before [after [El [Hb Ha]]]].
      exists (e :: before), after. rewrite El. repeat split; [| exact Ha].
      intros x [<- | Hx]; [lia | exact (Hb x Hx)].
Qed.

(** ** The candidate set *)

Lemma row_edges_row (df : DataFrame) (row : string) (cols : list string) (e : edge) :
  In e (row_edges df row cols) ->
  edge_row e = row /\ In (edge_column e) cols
  /\ edge_column e <> row
  /\ edge_cost e = loc df row (edge_column e) /\ edge_cost e <> 0%Z.
Proof.
  induction cols as [| c cols IH]; simpl; [tauto |].
  destruct (String.eqb_spec row c) as [E | N].
  - intros H. destruct (IH H) as [H1 [H2 H3]]. auto.
  - destruct (Z.eqb_spec (loc df row c) 0) as [Ez | Nz].
    + intros H. destruct (IH H) as [H1 [H2 H3]]. auto.
    + intros [<- | H].
      * simpl. repeat split; auto.
      * destruct (IH H) as [H1 [H2 H3]]. auto.
Qed.

Lemma row_edges_has_edge (df : DataFrame) (v : string) :
  has_edge df v <-> row_edges df v (columns df) <> [].
Proof.
  unfold has_edge. generalize (columns df) as cols.
  induction cols as [| c cols IH]; simpl.
  - split; [intros [c [[] _]] | intros H; contradiction].
  - destruct (String.eqb_spec v c) as [E | N].
    + rewrite <- IH. split.
      * intros [c' [[<- | Hin] [Hne Hz]]]; [congruence |]. exists c'; auto.
      * intros [c' [Hin H]]. exists c'; auto.
    + destruct (Z.eqb_spec (loc df v c) 0) as [Ez | Nz].
      * rewrite <- IH. split.
        -- intros [c' [[<- | Hin] [Hne Hz]]]; [contradiction |]. exists c'; auto.
        -- intros [c' [Hin H]]. exists c'; auto.
      * split; [discriminate |]. intros _. exists c. auto.
Qed.

Lemma get_shortest_edges_sorted (rows : list (list edge)) :
  get_shortest_edges (map py_sorted (filter nonempty rows))
  = Done (flat_map (fun l => firstn 1 (py_sorted l)) rows).
Proof.
  unfold get_shortest_edges.
  induction rows as [| l rows IH]; [reflexivity |].
  destruct l as [| e l].
  - cbn [filter nonempty flat_map py_sorted firstn app]. exact IH.
  - cbn [filter nonempty map mapM flat_map].
    destruct (py_sorted_head e l) as [m [rest [Hs _]]].
    rewrite Hs. cbn [item nth_error bind firstn app].
    rewrite IH. reflexivity.
Qed.

Lemma chosen_by_other (df : DataFrame) (v : string) (rows : list string) :
  ~ In v rows ->
  chosen_by v
    (flat_map (fun row => firstn 1 (py_sorted (row_edges df row (columns df))))
       rows) = [].
Proof.
  induction rows as [| r rows IH]; intros Hv; [reflexivity |].
  cbn [flat_map]. unfold chosen_by in *. rewrite filter_app.
  rewrite IH by (intros H; apply Hv; right; exact H).
  rewrite app_nil_r.
  destruct (row_edges df r (columns df)) as [| e l] eqn:E; [reflexivity |].
  destruct (py_sorted_head e l) as [m [rest [Hs [before [after [Hm _]]]]]].
  rewrite Hs. cbn [firstn filter].
  assert (Hin : In m (row_edges df r (columns df)))
    by (rewrite E, Hm; apply in_or_app; right; left; reflexivity).
  apply row_edges_row in Hin as [Hr _].
  destruct (String.eqb_spec (edge_row m) v) as [Ev | Nv]; [| reflexivity].
  exfalso. apply Hv. left. congruence.
Qed.

Lemma chosen_by_own (df : DataFrame) (v : string) (rows : list string) :
  NoDup rows -> In v rows ->
  chosen_by v
    (flat_map (fun row => firstn 1 (py_sorted (row_edges df row (columns df))))
       rows)
  = firstn 1 (py_sorted (row_edges df v (columns df))).
Proof.
  induction rows as [| r rows IH]; intros Hnd Hv; [contradiction |].
  inversion Hnd as [| r' rows' Hnotin Hnd']; subst.
  cbn [flat_map]. unfold chosen_by. rewrite filter_app.
  fold (chosen_by v (firstn 1 (py_sorted (row_edges df r (columns df))))).
  match goal with
  | |- _ ++ ?t = _ => change t with
      (chosen_by v
         (flat_map
            (fun row => firstn 1 (py_sorted (row_edges df row (columns df))))
            rows))
  end.
  destruct (String.eqb_spec r v) as [E | N].
  - subst r. rewrite chosen_by_other by exact Hnotin. rewrite app_nil_r.
    destruct (row_edges df v (columns df)) as [| e l] eqn:E; [reflexivity |].
    destruct (py_sorted_head e l) as [m [rest [Hs [before [after [Hm _]]]]]].
    rewrite Hs. cbn [firstn]. unfold chosen_by. cbn [filter].
    assert (Hin : In m (row_edges df v (columns df)))
      by (rewrite E, Hm; apply in_or_app; right; left; reflexivity).
    apply row_edges_row in Hin as [Hr _].
    rewrite Hr, String.eqb_refl. reflexivity.
  - destruct Hv as [Hv | Hv]; [contradiction |].
    rewrite IH by assumption.
    pose proof (chosen_by_other df v [r]) as H.
    cbn [flat_map] in H. rewrite app_nil_r in H.
    rewrite H; [reflexivity |]. intros [Hr | []]. contradiction.
Qed.

(** When every vertex has an incident edge, the entry of [get_nodes] at
    the position of a label is the sorted edge list of that label. *)
Lemma get_nodes_aligned (df : DataFrame) :
  (forall v, In v (index df) -> has_edge df v) ->
  get_nodes df
  = map (fun row => py_sorted (row_edges df row (columns df))) (index df).
Proof.
  intros H. unfold get_nodes.
  induction (index df) as [| r rows IH]; [reflexivity |].
  cbn [map filter].
  pose proof (proj1 (row_edges_has_edge df r) (H r (or_introl eq_refl))) as Hr.
  destruct (row_edges df r (columns df)) as [| e l] eqn:E; [contradiction |].
  cbn [nonempty map]. rewrite IH; [reflexivity |].
  intros v Hv. apply H. right. exact Hv.
Qed.

Lemma candidates_per_row (df : DataFrame) :
  get_shortest_edges (get_nodes df)
  = Done (flat_map
            (fun row => firstn 1 (py_sorted (row_edges df row (columns df))))
            (index df)).
Proof.
  unfold get_nodes. rewrite get_shortest_edges_sorted. f_equal.
  induction (index df) as [| r rows IH]; [reflexivity |].
  cbn [map flat_map]. rewrite IH. reflexivity.
Qed.

(** C5: the candidate set holds, for every vertex with an incident edge,
    exactly one edge chosen by that vertex: the head of its sorted edge
    list, which is the first edge of its row, in column order, of minimal
    cost.  A vertex without incident edges chooses nothing. *)
Theorem candidate_is_cheapest_per_vertex (df : DataFrame) :
  NoDup (index df) ->
  exists cand,
    get_shortest_edges (get_nodes df) = Done cand
    /\ forall v, In v (index df) ->
         (has_edge df v ->
          exists e,
            chosen_by v cand = [e]
            /\ hd_error (py_sorted (row_edges df v (columns df))) = Some e
            /\ cheapest_first e (row_edges df v (columns df)))
         /\ (~ has_edge df v -> chosen_by v cand = []).
Proof.
  intros Hnd. eexists. split; [apply candidates_per_row |].
  intros v Hv. rewrite (chosen_by_own df v (index df) Hnd Hv).
  split.
  - intros He. apply row_edges_has_edge in He.
    destruct (row_edges df v (columns df)) as [| e l]; [contradiction |].
    destruct (py_sorted_head e l) as [m [rest [Hs Hm]]].
    exists m. rewrite Hs. auto.
  - intros He. rewrite row_edges_has_edge in He.
    destruct (row_edges df v (columns df)) as [| e l]; [reflexivity |].
    exfalso. apply He. discriminate.
Qed.

(** The frame of [looping_network], whose labels are distinct. *)
Lemma candidate_is_cheapest_per_vertex_witness :
  exists cand,
    get_shortest_edges (get_nodes looping_frame) = Done cand
    /\ forall v, In v (index looping_frame) ->
         (has_edge looping_frame v ->
          exists e,
            chosen_by v cand = [e]
            /\ hd_error (py_sorted (row_edges looping_frame v
                                     (columns looping_frame))) = Some e
            /\ cheapest_first e (row_edges looping_frame v
                                   (columns looping_frame)))
         /\ (~ has_edge looping_frame v -> chosen_by v cand = []).
Proof.
  apply (candidate_is_cheapest_per_vertex looping_frame).
  simpl. repeat constructor; simpl; intuition discriminate.
Defined.

(** ** The distinct edges *)

Lemma append_eqb (a b c d : string) :
  String.length a = String.length c ->
  String.eqb (a ++ b) (c ++ d) = (String.eqb a c && String.eqb b d)%bool.
Proof.
  revert c. induction a as [| x a IH]; intros [| y c]; simpl; try discriminate.
  - reflexivity.
  - intros H. injection H as H. rewrite (IH c H).
    destruct (Ascii.eqb x y); reflexivity.
Qed.

Lemma existsb_orb {A : Type} (f g : A -> bool) (l : list A) :
  (existsb f l || existsb g l)%bool = existsb (fun x => (f x || g x)%bool) l.
Proof.
  induction l as [| x l IH]; simpl; [reflexivity |].
  rewrite <- IH. destruct (f x), (g x), (existsb f l); reflexivity.
Qed.

Lemma existsb_pointwise {A : Type} (f g : A -> bool) (l : list A) :
  (forall x, f x = g x) -> existsb f l = existsb g l.
Proof.
  intros H. induction l as [| x l IH]; simpl; [reflexivity |].
  rewrite H, IH. reflexivity.
Qed.

Lemma py_in_keys (n : nat) (r c : string) (kept : list edge) :
  String.length r = n -> labels_of_length n kept ->
  py_in (r ++ c)%string (map key kept)
  = existsb (fun e => (String.eqb r (edge_row e)
                       && String.eqb c (edge_column e))%bool) kept.
Proof.
  intros Hr Hk. unfold py_in.
  induction Hk as [| e kept [He1 He2] _ IH]; simpl; [reflexivity |].
  rewrite IH. unfold key. rewrite append_eqb by congruence. reflexivity.
Qed.

(** With labels of one length, a pair is recorded in [seen] exactly when an
    edge already kept joins it. *)
Lemma recorded_joins (n : nat) (r c : string) (kept : list edge) :
  String.length r = n -> String.length c = n -> labels_of_length n kept ->
  recorded r c (map key kept) = existsb (joins r c) kept.
Proof.
  intros Hr Hc Hk. unfold recorded.
  rewrite (py_in_keys n r c kept Hr Hk), (py_in_keys n c r kept Hc Hk).
  rewrite existsb_orb. apply existsb_pointwise. intros e.
  unfold joins, same_pair.
  destruct (String.eqb r (edge_row e)), (String.eqb c (edge_column e)),
    (String.eqb c (edge_row e)), (String.eqb r (edge_column e)); reflexivity.
Qed.

Lemma row_edges_In (df : DataFrame) (row c : string) (cols : list string) :
  In c cols -> row <> c -> loc df row c <> 0%Z ->
  In (Edge row c (loc df row c)) (row_edges df row cols).
Proof.
  intros Hin Hne Hz. induction cols as [| c' cols IH]; simpl; [contradiction |].
  destruct (String.eqb_spec row c') as [E | N].
  - destruct Hin as [<- | Hin]; [contradiction | exact (IH Hin)].
  - destruct (Z.eqb_spec (loc df row c') 0) as [Ez | Nz].
    + destruct Hin as [<- | Hin]; [contradiction | exact (IH Hin)].
    + destruct Hin as [<- | Hin]; [left; reflexivity | right; exact (IH Hin)].
Qed.

Lemma row_edges_labels (n : nat) (df : DataFrame) (row : string)
  (cols : list string) :
  String.length row = n -> Forall (fun s => String.length s = n) cols ->
  labels_of_length n (row_edges df row cols).
Proof.
  intros Hr Hc. apply Forall_forall. intros e He.
  apply row_edges_row in He as [H1 [H2 _]].
  rewrite Forall_forall in Hc. split; [congruence | auto].
Qed.

Lemma first_of_pair_In (kept l : list edge) (e : edge) :
  In e (first_of_pair kept l) -> In e l.
Proof.
  revert kept. induction l as [| x l IH]; simpl; intros kept H; [exact H |].
  destruct (existsb (joins (edge_row x) (edge_column x)) kept).
  - right. exact (IH _ H).
  - destruct H as [H | H]; [left; exact H | right; exact (IH _ H)].
Qed.

Lemma first_of_pair_labels (n : nat) (kept l : list edge) :
  labels_of_length n l -> labels_of_length n (first_of_pair kept l).
Proof.
  unfold labels_of_length. rewrite !Forall_forall.
  intros H e He. apply H. eapply first_of_pair_In; exact He.
Qed.

Lemma first_of_pair_app (kept l1 l2 : list edge) :
  first_of_pair kept (l1 ++ l2)
  = first_of_pair kept l1
    ++ first_of_pair (kept ++ first_of_pair kept l1) l2.
Proof.
  revert kept. induction l1 as [| x l1 IH]; simpl; intros kept.
  - rewrite app_nil_r. reflexivity.
  - destruct (existsb (joins (edge_row x) (edge_column x)) kept).
    + apply IH.
    + simpl. rewrite IH. rewrite <- app_assoc. reflexivity.
Qed.

Lemma first_of_pair_subsequence (kept l : list edge) :
  subsequence (first_of_pair kept l) l.
Proof.
  revert kept. induction l as [| x l IH]; simpl; intros kept; [constructor |].
  destruct (existsb (joins (edge_row x) (edge_column x)) kept);
    constructor; apply IH.
Qed.

(** The inner loop of [get_unique_nodes] keeps the first edge of every pair
    not yet kept, and records the edges it keeps. *)
Lemma unique_columns_first_of_pair (n : nat) (df : DataFrame) (row : string)
  (cols : list string) (kept : list edge) :
  String.length row = n -> Forall (fun s => String.length s = n) cols ->
  labels_of_length n kept ->
  unique_columns df row cols (map key kept)
  = (first_of_pair kept (row_edges df row cols),
     map key (kept ++ first_of_pair kept (row_edges df row cols))).
Proof.
  intros Hr Hc. revert kept.
  induction Hc as [| c cols Hlen _ IH]; intros kept Hk; simpl.
  - rewrite app_nil_r. reflexivity.
  - destruct (String.eqb row c); [apply IH; exact Hk |].
    destruct (Z.eqb (loc df row c) 0); [apply IH; exact Hk |].
    simpl. rewrite (recorded_joins n row c kept Hr Hlen Hk).
    destruct (existsb (joins row c) kept); [apply IH; exact Hk |].
    change [(row ++ c)%string] with (map key [Edge row c (loc df row c)]).
    rewrite <- map_app. rewrite IH.
    + rewrite <- app_assoc. reflexivity.
    + apply Forall_app. split; [exact Hk |].
      constructor; [split; assumption | constructor].
Qed.

Lemma unique_rows_first_of_pair (n : nat) (df : DataFrame) (rows : list string)
  (kept : list edge) :
  Forall (fun s => String.length s = n) rows ->
  Forall (fun s => String.length s = n) (columns df) ->
  labels_of_length n kept ->
  concat (unique_rows df rows (map key kept))
  = first_of_pair kept
      (flat_map (fun row => row_edges df row (columns df)) rows).
Proof.
  intros Hrows Hcols. revert kept.
  induction Hrows as [| row rows Hlen _ IH]; intros kept Hk; [reflexivity |].
  cbn [unique_rows flat_map].
  rewrite (unique_columns_first_of_pair n df row (columns df) kept Hlen Hcols Hk).
  rewrite first_of_pair_app.
  set (temp := first_of_pair kept (row_edges df row (columns df))).
  assert (Hk' : labels_of_length n (kept ++ temp)).
  { apply Forall_app. split; [exact Hk |].
    apply first_of_pair_labels, row_edges_labels; assumption. }
  specialize (IH (kept ++ temp) Hk').
  destruct temp as [| e rest]; [exact IH |].
  cbn [concat]. rewrite IH. reflexivity.
Qed.

Lemma same_pair_trans (a b c d x y : string) :
  same_pair a b c d = true -> same_pair a b x y = same_pair c d x y.
Proof.
  unfold same_pair. intros H.
  apply orb_true_iff in H as [H | H];
    apply andb_true_iff in H as [H1 H2];
    apply String.eqb_eq in H1, H2; subst.
  - reflexivity.
  - destruct (String.eqb d x), (String.eqb c y),
      (String.eqb d y), (String.eqb c x); reflexivity.
Qed.

Lemma joins_kept (a b : string) (e : edge) (kept : list edge) :
  joins a b e = true ->
  existsb (joins (edge_row e) (edge_column e)) kept = existsb (joins a b) kept.
Proof.
  intros H. apply existsb_pointwise. intros x. unfold joins in *.
  symmetry. apply same_pair_trans. exact H.
Qed.

(** Each pair is kept once if it occurs in the scan, and never otherwise. *)
Lemma count_pair_first_of_pair (a b : string) (kept l : list edge) :
  count_pair a b (first_of_pair kept l)
  = if existsb (joins a b) kept then 0%nat
    else if existsb (joins a b) l then 1%nat else 0%nat.
Proof.
  unfold count_pair. revert kept.
  induction l as [| e l IH]; intros kept; simpl.
  - destruct (existsb (joins a b) kept); reflexivity.
  - destruct (joins a b e) eqn:J.
    + rewrite (joins_kept a b e kept J).
      destruct (existsb (joins a b) kept) eqn:K.
      * rewrite IH, K. reflexivity.
      * simpl. rewrite J. simpl. rewrite IH.
        rewrite existsb_app. simpl. rewrite K, J. reflexivity.
    + destruct (existsb (joins (edge_row e) (edge_column e)) kept) eqn:D.
      * rewrite IH. simpl. reflexivity.
      * simpl. rewrite J. rewrite IH. rewrite existsb_app. simpl.
        rewrite J, !orb_false_r. reflexivity.
Qed.

(** A kept edge is the first edge of the scan that joins its pair. *)
Lemma first_of_pair_first (kept l : list edge) (e : edge) :
  In e (first_of_pair kept l) ->
  existsb (joins (edge_row e) (edge_column e)) kept = false
  /\ exists l1 l2,
       l = l1 ++ e :: l2
       /\ forall x, In x l1 -> joins (edge_row e) (edge_column e) x = false.
Proof.
  revert kept. induction l as [| y l IH]; simpl; intros kept H; [contradiction |].
  destruct (existsb (joins (edge_row y) (edge_column y)) kept) eqn:D.
  - destruct (IH kept H) as [K [l1 [l2 [El Hl]]]].
    split; [exact K |]. exists (y :: l1), l2. split; [rewrite El; reflexivity |].
    intros x [<- | Hx]; [| exact (Hl x Hx)].
    destruct (joins (edge_row e) (edge_column e) y) eqn:J; [| reflexivity].
    rewrite (joins_kept _ _ y kept J) in D. congruence.
  - destruct H as [<- | H].
    + split; [exact D |]. exists [], l. split; [reflexivity |]. intros x [].
    + destruct (IH _ H) as [K [l1 [l2 [El Hl]]]].
      rewrite existsb_app in K. apply orb_false_iff in K as [K1 K2].
      simpl in K2. rewrite orb_false_r in K2.
      split; [exact K1 |]. exists (y :: l1), l2.
      split; [rewrite El; reflexivity |].
      intros x [<- | Hx]; [exact K2 | exact (Hl x Hx)].
Qed.

Lemma uniform_labels_length (names : list string) :
  uniform_labels names ->
  exists n, Forall (fun s => String.length s = n) names.
Proof.
  intros H. destruct names as [| x names].
  - exists 0%nat. constructor.
  - exists (String.length x). apply Forall_forall.
    intros s Hs. apply H; [exact Hs | left; reflexivity].
Qed.

Lemma get_unique_nodes_spec (df : DataFrame) :
  columns df = index df -> uniform_labels (index df) ->
  concat (get_unique_nodes df) = spec_distinctEdges df.
Proof.
  intros Hsq Hu. destruct (uniform_labels_length _ Hu) as [n Hn].
  unfold get_unique_nodes, spec_distinctEdges, scan_edges.
  change (@nil string) with (map key []).
  apply (unique_rows_first_of_pair n); [exact Hn | rewrite Hsq; exact Hn |].
  constructor.
Qed.

Lemma scan_edges_In (df : DataFrame) (a b : string) :
  In a (index df) -> In b (columns df) -> a <> b -> loc df a b <> 0%Z ->
  In (Edge a b (loc df a b)) (scan_edges df).
Proof.
  intros Ha Hb Hne Hz. unfold scan_edges. apply in_flat_map.
  exists a. split; [exact Ha | apply row_edges_In; assumption].
Qed.

Lemma scan_edges_row (df : DataFrame) (e : edge) :
  In e (scan_edges df) ->
  edge_row e <> edge_column e
  /\ edge_cost e = loc df (edge_row e) (edge_column e)
  /\ edge_cost e <> 0%Z.
Proof.
  unfold scan_edges. intros H. apply in_flat_map in H as [r [_ H]].
  apply row_edges_row in H as [H1 [H2 [H3 [H4 H5]]]].
  subst r. auto.
Qed.

(** What the frame constructor returns when it returns a frame. *)
Lemma pd_DataFrame_Done (data : list (list Z)) (idx cols : list string)
  (df : DataFrame) :
  pd_DataFrame data idx cols = Done df ->
  index df = idx /\ columns df = cols
  /\ Forall (fun r => length r = length cols) data
  /\ Forall (fun r => forallb in_int64 r = true) data
  /\ ((length data = length idx /\ cells df = data)
      \/ exists r, data = [r] /\ cells df = repeat r (length idx)).
Proof.
  unfold pd_DataFrame. destruct data as [| first others]; [discriminate |].
  destruct (Nat.eqb_spec (row_width (first :: others)) (length cols)) as [Ew | Nw];
    cbn [negb]; [| discriminate].
  destruct others as [| second others].
  - destruct (forallb in_int64 first) eqn:Hfit; [| discriminate].
    intros H. inversion H; subst df; clear H. cbn [index columns cells].
    split; [reflexivity |]. split; [reflexivity |].
    split; [constructor; [| constructor] |].
    + cbn [row_width fold_right] in Ew. rewrite Nat.max_0_r in Ew. exact Ew.
    + split; [constructor; [exact Hfit | constructor] |].
      right. exists first. auto.
  - destruct (Nat.eqb_spec (length (first :: second :: others)) (length idx))
      as [El | Nl]; cbn [negb]; [| discriminate].
    destruct (forallb (fun r => Nat.eqb (length r) (length cols))
                (first :: second :: others)) eqn:Hall; cbn [negb]; [| discriminate].
    destruct (forallb (forallb in_int64) (first :: second :: others)) eqn:Hfit;
      [| discriminate].
    intros H. inversion H; subst df; clear H. cbn [index columns cells].
    split; [reflexivity |]. split; [reflexivity |].
    split; [| split; [| left; auto]]; apply Forall_forall; intros x Hx.
    + rewrite forallb_forall in Hall. apply Nat.eqb_eq. exact (Hall x Hx).
    + rewrite forallb_forall in Hfit. exact (Hfit x Hx).
Qed.

(** Every frame that [wrangle] returns has the label list on both axes; the
    labels A to G are uniform. *)
Lemma wrangle_Done_axes (text : string) (names : list string) (df : DataFrame) :
  wrangle text names = Done df -> index df = names /\ columns df = names.
Proof.
  unfold wrangle. intros H. apply bind_Done_inv in H as [parsed [_ H]].
  apply pd_DataFrame_Done in H as [Hi [Hc _]]. auto.
Qed.

Lemma vertices_name_uniform : uniform_labels vertices_name.
Proof.
  intros a b Ha Hb. simpl in Ha, Hb.
  repeat (destruct Ha as [<- | Ha];
          [repeat (destruct Hb as [<- | Hb]; [reflexivity |]); contradiction |]).
  contradiction.
Qed.

(** X19: when the labels are distinct and all have the same length (as the
    one-letter labels A to G have), the flattened result of
    [get_unique_nodes] is the row-major scan of the non-zero off-diagonal
    cells with every edge dropped whose unordered pair was kept before; each
    unordered pair of distinct vertices with a non-zero cell occurs exactly
    once; and each edge kept is the first of its pair in the scan. *)
Theorem get_unique_nodes_distinct_edges (df : DataFrame) :
  columns df = index df ->
  NoDup (index df) ->
  uniform_labels (index df) ->
  concat (get_unique_nodes df) = spec_distinctEdges df
  /\ subsequence (concat (get_unique_nodes df)) (scan_edges df)
  /\ (forall a b,
        In a (index df) -> In b (index df) -> a <> b ->
        loc df a b <> 0%Z \/ loc df b a <> 0%Z ->
        count_pair a b (concat (get_unique_nodes df)) = 1%nat)
  /\ (forall e,
        In e (concat (get_unique_nodes df)) ->
        edge_row e <> edge_column e
        /\ edge_cost e = loc df (edge_row e) (edge_column e)
        /\ edge_cost e <> 0%Z
        /\ exists l1 l2,
             scan_edges df = l1 ++ e :: l2
             /\ forall x, In x l1 ->
                          joins (edge_row e) (edge_column e) x = false).
Proof.
  intros Hsq _ Hu. rewrite (get_unique_nodes_spec df Hsq Hu).
  unfold spec_distinctEdges.
  split; [reflexivity |]. split; [apply first_of_pair_subsequence |]. split.
  - intros a b Ha Hb Hne Hz.
    rewrite count_pair_first_of_pair. simpl.
    assert (E : existsb (joins a b) (scan_edges df) = true).
    { apply existsb_exists. destruct Hz as [Hz | Hz].
      - exists (Edge a b (loc df a b)). split.
        + apply scan_edges_In; auto. rewrite Hsq; exact Hb.
        + unfold joins, same_pair. simpl. rewrite !String.eqb_refl. reflexivity.
      - exists (Edge b a (loc df b a)). split.
        + apply scan_edges_In; auto. rewrite Hsq; exact Ha.
        + unfold joins, same_pair. simpl. rewrite !String.eqb_refl.
          apply orb_true_r. }
    rewrite E. reflexivity.
  - intros e He.
    destruct (scan_edges_row df e (first_of_pair_In _ _ _ He)) as [H1 [H2 H3]].
    destruct (first_of_pair_first _ _ _ He) as [_ Hfirst].
    auto.
Qed.

(** The frame of [looping_network]: the pair A, B is kept once. *)
Lemma get_unique_nodes_distinct_edges_witness :
  count_pair "A" "B" (concat (get_unique_nodes looping_frame)) = 1%nat.
Proof.
  refine (proj1 (proj2 (proj2
            (get_unique_nodes_distinct_edges looping_frame _ _ _)))
            "A" "B" _ _ _ _).
  - reflexivity.
  - simpl. repeat constructor; simpl; intuition discriminate.
  - intros a b Ha Hb. simpl in Ha, Hb.
    repeat (destruct Ha as [<- | Ha];
            [repeat (destruct Hb as [<- | Hb]; [reflexivity |]); contradiction |]).
    contradiction.
  - simpl; auto.
  - simpl; auto.
  - discriminate.
  - left. vm_compute. discriminate.
Defined.

(** C2, at a failing input: over the distinct labels A, AB, B, BB the
    pairs A-BB and AB-B are recorded under the same string, ["ABB"], so the
    edge AB-B, whose cell holds 2, is left out of the result: the unordered
    pair AB, B has a non-zero cost and occurs no time instead of once. *)
Theorem get_unique_nodes_drops_edge :
  wrangle mixed_network mixed_labels = Done mixed_frame
  /\ NoDup mixed_labels
  /\ loc mixed_frame "AB" "B" = 2%Z
  /\ concat (get_unique_nodes mixed_frame) = [Edge "A" "BB" 1%Z]
  /\ count_pair "AB" "B" (concat (get_unique_nodes mixed_frame)) <> 1%nat.
Proof.
  split; [vm_compute; reflexivity |].
  split; [unfold mixed_labels; repeat constructor; simpl; intuition discriminate |].
  split; [vm_compute; reflexivity |].
  split; [vm_compute; reflexivity |]. vm_compute. discriminate.
Qed.

(** ** What a completed repair guarantees *)

(** When the repair loop returns, no label is isolated with respect to the
    two-pass connected set of the list it returns: either nothing was
    isolated to begin with, or the last recomputation found no isolated
    label. *)
Lemma add_isolated_loop_done (fuel : nat) (node_names : list string)
  (vertices : list (list edge)) (shortest_edges : list edge)
  (isolated_nodes : list string) (final : list edge) :
  add_isolated_loop fuel node_names vertices shortest_edges isolated_nodes
  = Done final ->
  (isolated_nodes = [] /\ final = shortest_edges)
  \/ exists connected_nodes,
       get_connected_nodes final = Done connected_nodes
       /\ isolated_of node_names connected_nodes = [].
Proof.
  revert shortest_edges isolated_nodes.
  induction fuel as [| fuel IH]; intros shortest_edges isolated_nodes H.
  - destruct isolated_nodes; simpl in H; [| discriminate].
    inversion H; auto.
  - destruct isolated_nodes as [| tmp rest]; simpl in H.
    + inversion H; auto.
    + bind_inv H. right.
      destruct (IH _ _ H) as [[Hiso Hfinal] | Hex]; [| exact Hex].
      subst final. exists a2. auto.
Qed.

(* ================================================================= *)
(** * Further properties *)

(** ** The parsed frame *)




Lemma index_of_Some (x : string) (l : list string) (i : nat) :
  index_of x l = Some i -> nth_error l i = Some x.
Proof.
  revert i. induction l as [| y l IH]; simpl; intros i H; [discriminate |].
  destruct (String.eqb_spec x y) as [E | N].
  - inversion H; subst. reflexivity.
  - destruct (index_of x l) as [k |]; simpl in H; [| discriminate].
    inversion H; subst. simpl. apply IH. reflexivity.
Qed.




(** ** Numbers *)

Lemma digit_of_facts (c : ascii) (d : Z) :
  digit_of c = Some d ->
  is_space c = false
  /\ Ascii.eqb c "+"%char = false
  /\ Ascii.eqb c "-"%char = false
  /\ (0 <= d <= 9)%Z.
Proof.
  destruct c as [b0 b1 b2 b3 b4 b5 b6 b7].
  destruct b0, b1, b2, b3, b4, b5, b6, b7; vm_compute; intros H;
    try discriminate; inversion H; subst;
    repeat split; try reflexivity; discriminate.
Qed.

Lemma scan_digits_all (st : scan_state) (acc : Z) (count : nat) (s : string) :
  all_digits s = true ->
  s <> "" \/ st = AfterDigit ->
  scan_digits st acc count s
  = Some (decimal_from acc s, (count + String.length s)%nat, "").
Proof.
  revert st acc count. induction s as [| c rest IH]; intros st acc count Hall Hst.
  - destruct Hst as [Hne | ->]; [contradiction |].
    cbn [scan_digits decimal_from String.length]. rewrite Nat.add_0_r. reflexivity.
  - cbn [all_digits scan_digits decimal_from String.length] in *.
    destruct (digit_of c) as [d |]; [| discriminate].
    rewrite IH; [| exact Hall | right; reflexivity].
    replace (S count + String.length rest)%nat
      with (count + S (String.length rest))%nat by lia.
    reflexivity.
Qed.

Lemma decimal_from_nonneg (acc : Z) (s : string) :
  (0 <= acc)%Z -> (0 <= decimal_from acc s)%Z.
Proof.
  revert acc. induction s as [| c rest IH]; intros acc Hacc;
    cbn [decimal_from]; [exact Hacc |].
  destruct (digit_of c) as [d |] eqn:E; [| exact Hacc].
  apply digit_of_facts in E as [_ [_ [_ Hd]]]. apply IH. lia.
Qed.

Lemma py_int_digits (s : string) :
  s <> "" -> all_digits s = true ->
  ((String.length s <= max_str_digits)%nat ->
   py_int s = Done (decimal_from 0 s)
   /\ py_int ("-" ++ s) = Done (- decimal_from 0 s)%Z)
  /\ ((max_str_digits < String.length s)%nat ->
      py_int s = Raise (DigitLimit (String.length s))
      /\ py_int ("-" ++ s) = Raise (DigitLimit (String.length s))).
Proof.
  intros Hne Hall.
  pose proof (scan_digits_all AtStart 0%Z 0%nat s Hall (or_introl Hne)) as Hscan.
  rewrite Nat.add_0_l in Hscan.
  destruct s as [| c rest]; [contradiction |].
  cbn [all_digits] in Hall. destruct (digit_of c) as [d |] eqn:E; [| discriminate].
  destruct (digit_of_facts c d E) as [Hsp [Hplus [Hminus _]]].
  assert (Hpos : py_int (String c rest)
                 = if Nat.ltb max_str_digits (String.length (String c rest))
                   then Raise (DigitLimit (String.length (String c rest)))
                   else Done (decimal_from 0 (String c rest))).
  { unfold py_int. cbn [skip_spaces]. rewrite Hsp, Hplus, Hminus, Hscan.
    destruct (Nat.ltb max_str_digits (String.length (String c rest)));
      [reflexivity |].
    cbn [skip_spaces]. f_equal; lia. }
  assert (Hneg : py_int ("-" ++ String c rest)
                 = if Nat.ltb max_str_digits (String.length (String c rest))
                   then Raise (DigitLimit (String.length (String c rest)))
                   else Done (- decimal_from 0 (String c rest))%Z).
  { unfold py_int. cbn [append skip_spaces].
    replace (is_space "-"%char) with false by reflexivity.
    replace (Ascii.eqb "-"%char "+"%char) with false by reflexivity.
    replace (Ascii.eqb "-"%char "-"%char) with true by reflexivity.
    rewrite Hscan.
    destruct (Nat.ltb max_str_digits (String.length (String c rest)));
      [reflexivity |].
    cbn [skip_spaces]. f_equal; lia. }
  rewrite Hpos, Hneg.
  destruct (Nat.ltb_spec max_str_digits (String.length (String c rest)))
    as [Hlt | Hge].
  - split; [intros H; exfalso; lia | intros _; split; reflexivity].
  - split; [intros _; split; reflexivity | intros H; exfalso; lia].
Qed.

(** X2: a non-empty run of at most 4300 decimal digits is parsed to its
    value, which is not negative; with a minus sign in front it is parsed
    to the negated value, so a cell may hold a negative cost.  A longer run
    of digits is rejected with the [ValueError] that gives the number of
    digits. *)
Theorem parse_cell_digits (s : string) :
  s <> "" -> all_digits s = true ->
  ((String.length s <= max_str_digits)%nat ->
   texttoint s = Done (decimal_from 0 s)
   /\ parse_cell s = Done (decimal_from 0 s)
   /\ parse_cell ("-" ++ s) = Done (- decimal_from 0 s)%Z
   /\ (0 <= decimal_from 0 s)%Z)
  /\ ((max_str_digits < String.length s)%nat ->
      texttoint s = Raise (DigitLimit (String.length s))
      /\ parse_cell s = Raise (DigitLimit (String.length s))
      /\ parse_cell ("-" ++ s) = Raise (DigitLimit (String.length s))).
Proof.
  intros Hne Hall. destruct (py_int_digits s Hne Hall) as [Hok Hbig].
  assert (Ht : texttoint s = py_int s).
  { unfold texttoint. destruct (String.eqb_spec s ""); [contradiction | reflexivity]. }
  assert (Hc : parse_cell s = py_int s).
  { apply parse_cell_other; [exact Hne |]. intros E. subst s. discriminate Hall. }
  assert (Hm : parse_cell ("-" ++ s) = py_int ("-" ++ s)).
  { apply parse_cell_other.
    - destruct s; discriminate.
    - destruct s; [contradiction | discriminate]. }
  rewrite Ht, Hc, Hm. split.
  - intros Hlen. destruct (Hok Hlen) as [Hp Hn].
    repeat split; try assumption. apply decimal_from_nonneg. lia.
  - intros Hlen. destruct (Hbig Hlen) as [Hp Hn]. auto.
Qed.

Lemma parse_cell_digits_witness :
  texttoint "14" = Done 14%Z
  /\ parse_cell "14" = Done 14%Z
  /\ parse_cell "-14" = Done (-14)%Z
  /\ (0 <= 14)%Z.
Proof.
  apply (proj1 (parse_cell_digits "14" ltac:(discriminate) eq_refl)).
  unfold max_str_digits. cbn [String.length]. lia.
Defined.

(** ** The per-vertex edge lists *)

Lemma py_sorted_nonempty (l : list edge) : l <> [] -> py_sorted l <> [].
Proof.
  destruct l as [| e l]; [contradiction |]. intros _.
  destruct (py_sorted_head e l) as [m [rest [Hs _]]]. rewrite Hs. discriminate.
Qed.

Lemma get_nodes_no_empty (df : DataFrame) : ~ In [] (get_nodes df).
Proof.
  unfold get_nodes. intros H.
  apply in_map_iff in H as [raw [Hs Hraw]].
  apply filter_In in Hraw as [_ Hne].
  destruct raw as [| e raw]; [discriminate Hne |].
  apply (py_sorted_nonempty (e :: raw)); [discriminate | exact Hs].
Qed.

(** X3: every entry of [get_nodes] is the edge list of one label that has an
    incident edge: it is not empty, ascending in cost, a rearrangement of the
    non-zero off-diagonal cells of that label's row, and each of its edges
    starts at that label and carries the cell's cost. *)
Theorem get_nodes_entries (df : DataFrame) (line : list edge) :
  In line (get_nodes df) ->
  exists v,
    In v (index df) /\ has_edge df v
    /\ line = py_sorted (row_edges df v (columns df))
    /\ line <> []
    /\ StronglySorted cost_le line
    /\ Permutation line (row_edges df v (columns df))
    /\ forall e, In e line ->
         edge_row e = v /\ In (edge_column e) (columns df)
         /\ edge_column e <> v
         /\ edge_cost e = loc df v (edge_column e)
         /\ edge_cost e <> 0%Z.
Proof.
  unfold get_nodes. intros H.
  apply in_map_iff in H as [raw [Hs Hraw]].
  apply filter_In in Hraw as [Hraw Hne].
  apply in_map_iff in Hraw as [v [Hv Hin]]. subst raw line.
  assert (Hne' : row_edges df v (columns df) <> [])
    by (destruct (row_edges df v (columns df)); [discriminate Hne | discriminate]).
  exists v. split; [exact Hin |].
  split; [apply row_edges_has_edge; exact Hne' |].
  split; [reflexivity |].
  split; [apply py_sorted_nonempty; exact Hne' |].
  split; [apply py_sorted_sorted |].
  split; [apply py_sorted_perm |].
  intros e He. apply row_edges_row.
  eapply Permutation_in; [apply py_sorted_perm | exact He].
Qed.

Lemma get_nodes_entries_witness :
  exists v,
    In v (index example_frame) /\ has_edge example_frame v
    /\ [Edge "A" "C" 10; Edge "A" "B" 14; Edge "A" "D" 19]%Z
       = py_sorted (row_edges example_frame v (columns example_frame))
    /\ [Edge "A" "C" 10; Edge "A" "B" 14; Edge "A" "D" 19]%Z <> []
    /\ StronglySorted cost_le [Edge "A" "C" 10; Edge "A" "B" 14; Edge "A" "D" 19]%Z
    /\ Permutation [Edge "A" "C" 10; Edge "A" "B" 14; Edge "A" "D" 19]%Z
         (row_edges example_frame v (columns example_frame))
    /\ forall e, In e [Edge "A" "C" 10; Edge "A" "B" 14; Edge "A" "D" 19]%Z ->
         edge_row e = v /\ In (edge_column e) (columns example_frame)
         /\ edge_column e <> v
         /\ edge_cost e = loc example_frame v (edge_column e)
         /\ edge_cost e <> 0%Z.
Proof.
  apply (get_nodes_entries example_frame).
  vm_compute. left. reflexivity.
Defined.

Lemma filter_length_all {A : Type} (f : A -> bool) (l : list A) :
  (length (filter f l) <= length l)%nat
  /\ (length (filter f l) = length l <-> forall x, In x l -> f x = true).
Proof.
  induction l as [| x l [IHle IHeq]]; simpl.
  - split; [lia |]. split; [intros _ x [] | reflexivity].
  - destruct (f x) eqn:E; simpl.
    + split; [lia |]. split.
      * intros H y [<- | Hy]; [exact E |]. apply IHeq; [lia | exact Hy].
      * intros H. f_equal. apply IHeq. intros y Hy. apply H. right. exact Hy.
    + split; [lia |]. split; [lia |].
      intros H. rewrite (H x (or_introl eq_refl)) in E. discriminate.
Qed.

(** X4: [get_nodes] has at most one entry per label, and exactly one per
    label if and only if every label has an incident edge; in that case the
    entry at the position of a label is the sorted edge list of that label.
    A label without edges shifts the entries of all labels after it. *)
Theorem get_nodes_positions (df : DataFrame) :
  (length (get_nodes df) <= length (index df))%nat
  /\ ((forall v, In v (index df) -> has_edge df v)
      <-> length (get_nodes df) = length (index df))
  /\ ((forall v, In v (index df) -> has_edge df v) ->
      forall i v, nth_error (index df) i = Some v ->
        nth_error (get_nodes df) i
        = Some (py_sorted (row_edges df v (columns df)))).
Proof.
  assert (Hlen : length (get_nodes df)
                 = length (filter nonempty
                     (map (fun row => row_edges df row (columns df)) (index df))))
    by (unfold get_nodes; apply length_map).
  pose proof (filter_length_all nonempty
                (map (fun row => row_edges df row (columns df)) (index df)))
    as [Hle Heq].
  rewrite length_map in Hle, Heq.
  split; [rewrite Hlen; exact Hle |]. split.
  - rewrite Hlen. split.
    + intros H. apply Heq. intros raw Hraw.
      apply in_map_iff in Hraw as [v [<- Hv]].
      apply H, row_edges_has_edge in Hv.
      destruct (row_edges df v (columns df)); [contradiction | reflexivity].
    + intros H v Hv. apply row_edges_has_edge.
      pose proof (proj1 Heq H (row_edges df v (columns df))) as Hn.
      intros E. rewrite E in Hn. discriminate Hn.
      apply in_map_iff. exists v. auto.
  - intros H i v Hv. rewrite (get_nodes_aligned df H).
    rewrite nth_error_map, Hv. reflexivity.
Qed.

Lemma get_nodes_positions_witness :
  nth_error (get_nodes example_frame) 4
  = Some (py_sorted (row_edges example_frame "E" (columns example_frame))).
Proof.
  apply (proj2 (proj2 (get_nodes_positions example_frame))).
  - intros v Hv. apply row_edges_has_edge. simpl in Hv.
    destruct Hv as [<- | [<- | [<- | [<- | [<- | [<- | [<- | []]]]]]]];
      vm_compute; discriminate.
  - reflexivity.
Defined.

(** ** The cheapest edges *)

Lemma get_shortest_edges_empty_line (vertices : list (list edge)) :
  In [] vertices -> get_shortest_edges vertices = Raise IndexOutOfRange.
Proof.
  unfold get_shortest_edges.
  induction vertices as [| line vertices IH]; [contradiction |].
  intros [-> | Hin]; [reflexivity |].
  cbn [mapM]. destruct line as [| e line]; [reflexivity |].
  cbn [item nth_error bind]. rewrite (IH Hin). reflexivity.
Qed.

Lemma get_shortest_edges_heads (vertices : list (list edge)) :
  ~ In [] vertices ->
  exists l, get_shortest_edges vertices = Done l
            /\ Forall2 (fun line e => hd_error line = Some e) vertices l.
Proof.
  unfold get_shortest_edges.
  induction vertices as [| line vertices IH]; intros Hne.
  - exists []. split; [reflexivity | constructor].
  - destruct IH as [l [Hl HF]]; [intros H; apply Hne; right; exact H |].
    destruct line as [| e line]; [exfalso; apply Hne; left; reflexivity |].
    exists (e :: l). cbn [mapM item nth_error bind]. rewrite Hl.
    split; [reflexivity |]. constructor; [reflexivity | exact HF].
Qed.

(** X5: [get_shortest_edges] returns the heads of the lists it is given, one
    per list, and raises [IndexError] as soon as one of the lists is empty;
    on the lists built by [get_nodes] it always returns. *)
Theorem get_shortest_edges_behaviour :
  (forall vertices,
      ~ In [] vertices ->
      exists l, get_shortest_edges vertices = Done l
                /\ length l = length vertices
                /\ Forall2 (fun line e => hd_error line = Some e) vertices l)
  /\ (forall vertices,
        In [] vertices -> get_shortest_edges vertices = Raise IndexOutOfRange)
  /\ (forall df,
        exists cand, get_shortest_edges (get_nodes df) = Done cand
                     /\ length cand = length (get_nodes df)).
Proof.
  split; [| split].
  - intros vertices Hne.
    destruct (get_shortest_edges_heads vertices Hne) as [l [Hl HF]].
    exists l. split; [exact Hl |]. split; [| exact HF].
    symmetry. eapply Forall2_length; exact HF.
  - exact get_shortest_edges_empty_line.
  - intros df.
    destruct (get_shortest_edges_heads (get_nodes df)) as [l [Hl HF]].
    + apply get_nodes_no_empty.
    + exists l. split; [exact Hl |]. symmetry. eapply Forall2_length; exact HF.
Qed.

Lemma get_shortest_edges_behaviour_witness :
  (exists l,
      get_shortest_edges [[Edge "A" "B" 1%Z; Edge "A" "C" 2%Z]; [Edge "B" "A" 1%Z]]
      = Done l
      /\ length l = 2%nat
      /\ Forall2 (fun line e => hd_error line = Some e)
           [[Edge "A" "B" 1%Z; Edge "A" "C" 2%Z]; [Edge "B" "A" 1%Z]] l)
  /\ get_shortest_edges [[Edge "A" "B" 1%Z]; []] = Raise IndexOutOfRange.
Proof.
  split.
  - apply (proj1 get_shortest_edges_behaviour
             [[Edge "A" "B" 1%Z; Edge "A" "C" 2%Z]; [Edge "B" "A" 1%Z]]).
    simpl. intuition discriminate.
  - apply (proj1 (proj2 get_shortest_edges_behaviour) [[Edge "A" "B" 1%Z]; []]).
    simpl. auto.
Defined.

(** ** The distinct edges, whatever the labels *)

Lemma subsequence_refl {A : Type} (l : list A) : subsequence l l.
Proof. induction l; constructor; assumption. Qed.

Lemma subsequence_app {A : Type} (a b c d : list A) :
  subsequence a b -> subsequence c d -> subsequence (a ++ c) (b ++ d).
Proof.
  intros H1 H2. induction H1; simpl; [exact H2 | |]; constructor; assumption.
Qed.

Lemma subsequence_In {A : Type} (a b : list A) (x : A) :
  subsequence a b -> In x a -> In x b.
Proof.
  intros H. induction H; simpl; [tauto | |].
  - intros Hx. right. auto.
  - intros [Hx | Hx]; [left; exact Hx | right; auto].
Qed.

Lemma recorded_app (r c : string) (seen more : list string) :
  recorded r c (seen ++ more)
  = (recorded r c seen || recorded r c more)%bool.
Proof.
  unfold recorded, py_in. rewrite !existsb_app.
  destruct (existsb (String.eqb (r ++ c)) seen),
    (existsb (String.eqb (c ++ r)) seen),
    (existsb (String.eqb (r ++ c)) more); reflexivity.
Qed.

Lemma recorded_swap (r c : string) (seen : list string) :
  recorded r c seen = recorded c r seen.
Proof. unfold recorded. apply orb_comm. Qed.

Lemma joins_recorded (a b : string) (e : edge) (seen : list string) :
  joins a b e = true ->
  recorded (edge_row e) (edge_column e) seen = recorded a b seen
  /\ recorded a b [key e] = true.
Proof.
  unfold joins, same_pair, key. intros H.
  apply orb_true_iff in H as [H | H];
    apply andb_true_iff in H as [H1 H2];
    apply String.eqb_eq in H1, H2; subst.
  - split; [reflexivity |].
    unfold recorded, py_in. simpl. rewrite String.eqb_refl. reflexivity.
  - split; [apply recorded_swap |].
    unfold recorded, py_in. simpl. rewrite String.eqb_refl.
    rewrite orb_true_r. reflexivity.
Qed.

Lemma unrecorded_app (seen : list string) (l1 l2 : list edge) :
  unrecorded seen l1 -> unrecorded (seen ++ map key l1) l2 ->
  unrecorded seen (l1 ++ l2).
Proof.
  revert seen. induction l1 as [| e l1 IH]; simpl; intros seen H1 H2.
  - rewrite app_nil_r in H2. exact H2.
  - destruct H1 as [He H1]. split; [exact He |].
    apply IH; [exact H1 |]. rewrite <- app_assoc. exact H2.
Qed.

(** A pair is met at most once in an [unrecorded] list, and not at all when
    it is recorded from the start. *)
Lemma unrecorded_count (a b : string) (seen : list string) (l : list edge) :
  unrecorded seen l ->
  (count_pair a b l <= 1)%nat
  /\ (recorded a b seen = true -> count_pair a b l = 0%nat).
Proof.
  unfold count_pair. revert seen.
  induction l as [| e l IH]; simpl; intros seen H; [auto |].
  destruct H as [He H]. destruct (IH _ H) as [IHle IHzero].
  destruct (joins a b e) eqn:J; simpl.
  - destruct (joins_recorded a b e seen J) as [Hsame Hkey].
    assert (Hz : length (filter (joins a b) l) = 0%nat).
    { apply IHzero. rewrite recorded_app, Hkey. apply orb_true_r. }
    split; [lia |]. intros Hrec. congruence.
  - split; [exact IHle |]. intros Hrec. apply IHzero.
    rewrite recorded_app, Hrec. reflexivity.
Qed.

Lemma unique_columns_general (df : DataFrame) (row : string)
  (cols : list string) (seen : list string) :
  snd (unique_columns df row cols seen)
  = seen ++ map key (fst (unique_columns df row cols seen))
  /\ unrecorded seen (fst (unique_columns df row cols seen))
  /\ subsequence (fst (unique_columns df row cols seen)) (row_edges df row cols).
Proof.
  revert seen. induction cols as [| c cols IH]; intros seen; simpl.
  - rewrite app_nil_r. repeat split; constructor.
  - destruct (String.eqb row c); [apply IH |].
    destruct (Z.eqb (loc df row c) 0); [apply IH |].
    destruct (recorded row c seen) eqn:R.
    + destruct (IH seen) as [H1 [H2 H3]].
      repeat split; try assumption. apply subsequence_skip. exact H3.
    + destruct (IH (seen ++ [(row ++ c)%string])) as [H1 [H2 H3]].
      destruct (unique_columns df row cols (seen ++ [(row ++ c)%string]))
        as [temp seen'].
      simpl in *. rewrite <- app_assoc in H1.
      repeat split; try assumption. apply subsequence_keep. exact H3.
Qed.

Lemma unique_rows_general (df : DataFrame) (rows : list string)
  (seen : list string) :
  unrecorded seen (concat (unique_rows df rows seen))
  /\ subsequence (concat (unique_rows df rows seen))
       (flat_map (fun row => row_edges df row (columns df)) rows)
  /\ forall group, In group (unique_rows df rows seen) ->
       group <> []
       /\ exists v, In v rows /\ forall e, In e group -> edge_row e = v.
Proof.
  revert seen. induction rows as [| row rows IH]; intros seen.
  - simpl. split; [exact I | split; [constructor | intros group []]].
  - cbn [unique_rows flat_map].
    destruct (unique_columns_general df row (columns df) seen) as [H1 [H2 H3]].
    destruct (unique_columns df row (columns df) seen) as [temp seen'].
    cbn [fst snd] in H1, H2, H3. subst seen'.
    destruct (IH (seen ++ map key temp)) as [I1 [I2 I3]].
    assert (Hrest : forall group,
               In group (unique_rows df rows (seen ++ map key temp)) ->
               group <> []
               /\ exists v, In v (row :: rows)
                            /\ forall e, In e group -> edge_row e = v).
    { intros group Hg. destruct (I3 group Hg) as [Hne [v [Hv Hrow]]].
      split; [exact Hne |]. exists v. split; [right; exact Hv | exact Hrow]. }
    destruct temp as [| e temp].
    + split; [| split]; [| | exact Hrest].
      * apply (unrecorded_app seen [] _ H2 I1).
      * apply (subsequence_app [] _ _ _ H3 I2).
    + cbn [concat].
      split; [apply unrecorded_app; assumption |].
      split; [apply subsequence_app; assumption |].
      intros group [<- | Hg]; [| exact (Hrest group Hg)].
      split; [discriminate |]. exists row. split; [left; reflexivity |].
      intros x Hx. eapply row_edges_row. eapply subsequence_In; eassumption.
Qed.

Lemma get_unique_nodes_unrecorded (df : DataFrame) :
  unrecorded [] (concat (get_unique_nodes df)).
Proof. apply unique_rows_general. Qed.

(** X6: for every frame with distinct row labels and distinct column
    labels, whatever the length of the labels: the groups returned by
    [get_unique_nodes] are not empty and each holds edges of one row label;
    the edges are cells of the row-major scan, in scan order; and no
    unordered pair of labels occurs twice. *)
Theorem get_unique_nodes_general (df : DataFrame) :
  NoDup (index df) -> NoDup (columns df) ->
  (forall group, In group (get_unique_nodes df) ->
     group <> []
     /\ exists v, In v (index df) /\ forall e, In e group -> edge_row e = v)
  /\ subsequence (concat (get_unique_nodes df)) (scan_edges df)
  /\ (forall a b, (count_pair a b (concat (get_unique_nodes df)) <= 1)%nat).
Proof.
  intros _ _.
  destruct (unique_rows_general df (index df) []) as [H1 [H2 H3]].
  split; [exact H3 |]. split; [exact H2 |].
  intros a b. apply (unrecorded_count a b [] _ H1).
Qed.

Lemma get_unique_nodes_general_witness :
  [Edge "A" "BB" 1%Z] <> []
  /\ exists v, In v (index mixed_frame)
               /\ forall e, In e [Edge "A" "BB" 1%Z] -> edge_row e = v.
Proof.
  assert (Hnd : NoDup mixed_labels)
    by (unfold mixed_labels; repeat constructor; simpl; intuition discriminate).
  apply (proj1 (get_unique_nodes_general mixed_frame Hnd Hnd)).
  vm_compute. left. reflexivity.
Defined.

(** ** Duplicate removal in general *)

Lemma edge_eqb_eq (a b : edge) : edge_eqb a b = true <-> a = b.
Proof.
  unfold edge_eqb. destruct a as [r1 c1 w1], b as [r2 c2 w2]; simpl.
  rewrite !andb_true_iff, !String.eqb_eq, Z.eqb_eq.
  split; [intros [[-> ->] ->]; reflexivity | intros H; inversion H; auto].
Qed.

Lemma remove_first_middle (e : edge) (prefix rest : list edge) :
  ~ In e prefix -> remove_first e (prefix ++ e :: rest) = prefix ++ rest.
Proof.
  induction prefix as [| y prefix IH]; simpl; intros Hn.
  - rewrite (proj2 (edge_eqb_eq e e) eq_refl). reflexivity.
  - destruct (edge_eqb e y) eqn:E.
    + apply edge_eqb_eq in E. exfalso. apply Hn. left. congruence.
    + f_equal. apply IH. intros H. apply Hn. right. exact H.
Qed.

Lemma remove_first_In (e x : edge) (l : list edge) :
  In x (remove_first e l) -> In x l.
Proof.
  induction l as [| y l IH]; simpl; [tauto |].
  destruct (edge_eqb e y); [intros H; right; exact H |].
  intros [H | H]; [left; exact H | right; exact (IH H)].
Qed.

Lemma remove_first_length_ge (e : edge) (l : list edge) :
  (length l <= S (length (remove_first e l)))%nat.
Proof.
  induction l as [| y l IH]; simpl; [lia |].
  destruct (edge_eqb e y); simpl; lia.
Qed.

Lemma nth_error_at_prefix {A : Type} (prefix suffix : list A) :
  nth_error (prefix ++ suffix) (length prefix) = hd_error suffix.
Proof.
  induction prefix as [| x prefix IH]; simpl; [| exact IH].
  destruct suffix; reflexivity.
Qed.

Lemma find_unique_loop_past_end (fuel i : nat) (edges : list edge)
  (selected : list string) :
  (length edges <= i)%nat -> find_unique_loop fuel i edges selected = edges.
Proof.
  intros H. destruct fuel as [| fuel]; [reflexivity |]. simpl.
  apply nth_error_None in H. rewrite H. reflexivity.
Qed.

Lemma find_unique_loop_skip_scan (fuel : nat) (prefix suffix : list edge)
  (selected : list string) :
  NoDup (prefix ++ suffix) -> (length suffix <= fuel)%nat ->
  find_unique_loop fuel (length prefix) (prefix ++ suffix) selected
  = prefix ++ skip_scan selected suffix.
Proof.
  revert prefix suffix selected.
  induction fuel as [| fuel IH]; intros prefix suffix selected Hnd Hlen.
  - destruct suffix; [reflexivity | simpl in Hlen; lia].
  - cbn [find_unique_loop]. rewrite nth_error_at_prefix.
    destruct suffix as [| e rest]; [reflexivity |].
    cbn [hd_error skip_scan].
    destruct (recorded (edge_row e) (edge_column e) selected).
    + rewrite remove_first_middle
        by (apply NoDup_remove_2 in Hnd; intros H; apply Hnd;
            apply in_or_app; left; exact H).
      apply NoDup_remove_1 in Hnd.
      destruct rest as [| e' rest'].
      * rewrite app_nil_r. apply find_unique_loop_past_end. lia.
      * replace (prefix ++ e' :: rest') with ((prefix ++ [e']) ++ rest')
          in * by (rewrite <- app_assoc; reflexivity).
        replace (S (length prefix)) with (length (prefix ++ [e']))
          by (rewrite length_app; simpl; lia).
        rewrite IH; [rewrite <- app_assoc; reflexivity | exact Hnd |].
        simpl in Hlen. lia.
    + replace (prefix ++ e :: rest) with ((prefix ++ [e]) ++ rest)
        in * by (rewrite <- app_assoc; reflexivity).
      replace (S (length prefix)) with (length (prefix ++ [e]))
        by (rewrite length_app; simpl; lia).
      rewrite IH; [rewrite <- app_assoc; reflexivity | exact Hnd |].
      simpl in Hlen. lia.
Qed.

Lemma firstn_incl {A : Type} (n : nat) (l : list A) (x : A) :
  In x (firstn n l) -> In x l.
Proof.
  intros H. rewrite <- (firstn_skipn n l). apply in_or_app. left. exact H.
Qed.

(** The candidates chosen by distinct labels are distinct. *)
Lemma candidates_NoDup (df : DataFrame) (cand : list edge) :
  NoDup (index df) ->
  get_shortest_edges (get_nodes df) = Done cand -> NoDup cand.
Proof.
  intros Hnd H. rewrite candidates_per_row in H. inversion H; subst cand; clear H.
  induction Hnd as [| r rows Hr _ IH]; [constructor |].
  cbn [flat_map].
  assert (Hrows : forall x rs,
             In x (flat_map
                     (fun row => firstn 1 (py_sorted (row_edges df row (columns df))))
                     rs) -> In (edge_row x) rs).
  { intros x rs Hx. apply in_flat_map in Hx as [v [Hv Hx]].
    apply firstn_incl in Hx.
    eapply Permutation_in in Hx; [| apply py_sorted_perm].
    apply row_edges_row in Hx as [Hx _]. congruence. }
  destruct (py_sorted (row_edges df r (columns df))) as [| m rest] eqn:E;
    [exact IH |].
  cbn [firstn app]. constructor; [| exact IH].
  intros Hin. apply Hrows in Hin.
  assert (Hm : In m (row_edges df r (columns df))).
  { eapply Permutation_in; [apply py_sorted_perm |]. rewrite E. left. reflexivity. }
  apply row_edges_row in Hm as [Hm _]. congruence.
Qed.

(** X7: on a list of distinct edges, [find_unique_node] is the scan that
    drops an edge whose pair is recorded and then passes over the next edge
    without examining or recording it; the candidate list built from a frame
    with distinct labels is such a list. *)
Theorem find_unique_node_skip_scan :
  (forall edges, NoDup edges -> find_unique_node edges = skip_scan [] edges)
  /\ (forall df cand,
        NoDup (index df) ->
        get_shortest_edges (get_nodes df) = Done cand ->
        find_unique_node cand = skip_scan [] cand).
Proof.
  assert (H : forall edges, NoDup edges ->
                find_unique_node edges = skip_scan [] edges).
  { intros edges Hnd. unfold find_unique_node.
    apply (find_unique_loop_skip_scan (length edges) [] edges [] Hnd). lia. }
  split; [exact H |].
  intros df cand Hnd Hc. apply H. eapply candidates_NoDup; eassumption.
Qed.

Lemma find_unique_node_skip_scan_witness :
  find_unique_node single_edge_candidates = skip_scan [] single_edge_candidates.
Proof.
  apply (proj1 find_unique_node_skip_scan single_edge_candidates).
  unfold single_edge_candidates.
  repeat constructor; simpl; intuition discriminate.
Defined.

Lemma find_unique_loop_In (fuel i : nat) (edges : list edge)
  (selected : list string) (x : edge) :
  In x (find_unique_loop fuel i edges selected) -> In x edges.
Proof.
  revert i edges selected. induction fuel as [| fuel IH];
    intros i edges selected; simpl; [tauto |].
  destruct (nth_error edges i) as [e |]; [| tauto].
  destruct (recorded (edge_row e) (edge_column e) selected); intros H.
  - eapply remove_first_In. eapply IH. exact H.
  - eapply IH. exact H.
Qed.

Lemma find_unique_loop_length (fuel i : nat) (edges : list edge)
  (selected : list string) :
  (length (find_unique_loop fuel i edges selected) <= length edges)%nat.
Proof.
  revert i edges selected. induction fuel as [| fuel IH];
    intros i edges selected; simpl; [lia |].
  destruct (nth_error edges i) as [e |]; [| lia].
  destruct (recorded (edge_row e) (edge_column e) selected).
  - pose proof (IH (S i) (remove_first e edges) selected).
    pose proof (remove_first_length e edges). lia.
  - apply IH.
Qed.

Lemma find_unique_loop_nonempty (fuel i : nat) (edges : list edge)
  (selected : list string) :
  (1 <= i)%nat -> edges <> [] ->
  find_unique_loop fuel i edges selected <> [].
Proof.
  revert i edges selected. induction fuel as [| fuel IH];
    intros i edges selected Hi Hne; simpl; [exact Hne |].
  destruct (nth_error edges i) as [e |] eqn:E; [| exact Hne].
  assert (Hlt : (i < length edges)%nat) by (apply nth_error_Some; congruence).
  destruct (recorded (edge_row e) (edge_column e) selected).
  - apply IH; [lia |].
    pose proof (remove_first_length_ge e edges).
    destruct (remove_first e edges); [simpl in *; lia | discriminate].
  - apply IH; [lia | exact Hne].
Qed.

Lemma find_unique_node_nonempty (edges : list edge) :
  edges <> [] -> find_unique_node edges <> [].
Proof.
  destruct edges as [| e edges]; [contradiction |]. intros _.
  unfold find_unique_node. cbn [length find_unique_loop nth_error].
  replace (recorded (edge_row e) (edge_column e) []) with false by reflexivity.
  apply find_unique_loop_nonempty; [lia | discriminate].
Qed.

(** X8: [find_unique_node] only removes: every edge it returns is an edge
    of its argument and the result is no longer than the argument; from a
    non-empty list it never removes everything, so that
    [get_connected_nodes] returns on its result. *)
Theorem find_unique_node_only_removes (edges : list edge) :
  (forall x, In x (find_unique_node edges) -> In x edges)
  /\ (length (find_unique_node edges) <= length edges)%nat
  /\ (edges <> [] ->
      find_unique_node edges <> []
      /\ exists connected,
           get_connected_nodes (find_unique_node edges) = Done connected).
Proof.
  split; [intros x; apply find_unique_loop_In |].
  split; [apply find_unique_loop_length |].
  intros Hne. pose proof (find_unique_node_nonempty edges Hne) as Hr.
  split; [exact Hr |].
  destruct (find_unique_node edges) as [| first rest]; [contradiction |].
  eexists. reflexivity.
Qed.

Lemma find_unique_node_only_removes_witness :
  find_unique_node [Edge "A" "B" 1%Z; Edge "B" "A" 1%Z] <> []
  /\ exists connected,
       get_connected_nodes (find_unique_node [Edge "A" "B" 1%Z; Edge "B" "A" 1%Z])
       = Done connected.
Proof.
  apply (proj2 (proj2 (find_unique_node_only_removes
                         [Edge "A" "B" 1%Z; Edge "B" "A" 1%Z]))).
  discriminate.
Defined.

Lemma find_unique_loop_unrecorded (fuel : nat) (prefix suffix : list edge)
  (selected : list string) :
  unrecorded selected suffix ->
  find_unique_loop fuel (length prefix) (prefix ++ suffix) selected
  = prefix ++ suffix.
Proof.
  revert prefix suffix selected.
  induction fuel as [| fuel IH]; intros prefix suffix selected Hun;
    [reflexivity |].
  cbn [find_unique_loop]. rewrite nth_error_at_prefix.
  destruct suffix as [| e rest]; [reflexivity |].
  destruct Hun as [He Hun]. cbn [hd_error]. rewrite He.
  replace (prefix ++ e :: rest) with ((prefix ++ [e]) ++ rest)
    by (rewrite <- app_assoc; reflexivity).
  replace (S (length prefix)) with (length (prefix ++ [e]))
    by (rewrite length_app; simpl; lia).
  apply IH. exact Hun.
Qed.

(** X9: [find_unique_node] returns its argument unchanged when no edge is
    met with its pair already recorded; in particular it leaves the
    distinct-edge list of [get_unique_nodes] unchanged, for every frame with
    distinct row labels and distinct column labels. *)
Theorem find_unique_node_fixes_distinct :
  (forall edges, unrecorded [] edges -> find_unique_node edges = edges)
  /\ (forall df,
        NoDup (index df) -> NoDup (columns df) ->
        find_unique_node (concat (get_unique_nodes df))
        = concat (get_unique_nodes df)).
Proof.
  assert (H : forall edges, unrecorded [] edges -> find_unique_node edges = edges).
  { intros edges Hun. unfold find_unique_node.
    apply (find_unique_loop_unrecorded (length edges) [] edges [] Hun). }
  split; [exact H |].
  intros df _ _. apply H. apply get_unique_nodes_unrecorded.
Qed.

Lemma find_unique_node_fixes_distinct_witness :
  find_unique_node looping_candidates = looping_candidates.
Proof.
  apply (proj1 find_unique_node_fixes_distinct looping_candidates).
  vm_compute. repeat split.
Defined.

(** ** The connected set *)

Lemma py_in_In (x : string) (l : list string) : py_in x l = true <-> In x l.
Proof.
  unfold py_in. rewrite existsb_exists. split.
  - intros [y [Hy E]]. apply String.eqb_eq in E. subst y. exact Hy.
  - intros H. exists x. split; [exact H | apply String.eqb_refl].
Qed.

Lemma py_in_false (x : string) (l : list string) : py_in x l = false <-> ~ In x l.
Proof.
  rewrite <- py_in_In. destruct (py_in x l); split; congruence.
Qed.

Lemma connect_step_cases (c : list string) (a b : string) :
  (connect_step c (a, b) = c
   /\ ((In a c /\ In b c) \/ (~ In a c /\ ~ In b c)))
  \/ (connect_step c (a, b) = c ++ [a] /\ ~ In a c /\ In b c)
  \/ (connect_step c (a, b) = c ++ [b] /\ In a c /\ ~ In b c).
Proof.
  unfold connect_step.
  destruct (py_in a c) eqn:Ea;
    [apply (proj1 (py_in_In a c)) in Ea | apply (proj1 (py_in_false a c)) in Ea];
    (destruct (py_in b c) eqn:Eb;
     [apply (proj1 (py_in_In b c)) in Eb | apply (proj1 (py_in_false b c)) in Eb]);
    simpl.
  - left. split; [reflexivity | left; split; assumption].
  - right. right. repeat split; assumption.
  - right. left. repeat split; assumption.
  - left. split; [reflexivity | right; split; assumption].
Qed.

Lemma connect_step_incl (c : list string) (name : string * string) (x : string) :
  In x c -> In x (connect_step c name).
Proof.
  destruct name as [a b]. intros H.
  destruct (connect_step_cases c a b) as [[-> _] | [[-> _] | [-> _]]];
    [exact H | apply in_or_app; left; exact H ..].
Qed.

Lemma connect_step_both (c : list string) (a b : string) :
  In a c \/ In b c ->
  In a (connect_step c (a, b)) /\ In b (connect_step c (a, b)).
Proof.
  intros H.
  destruct (connect_step_cases c a b)
    as [[-> [[Ha Hb] | [Ha Hb]]] | [[-> [Ha Hb]] | [-> [Ha Hb]]]].
  - auto.
  - tauto.
  - split; apply in_or_app; [right; left; reflexivity | left; exact Hb].
  - split; apply in_or_app; [left; exact Ha | right; left; reflexivity].
Qed.

Lemma connect_step_NoDup (c : list string) (name : string * string) :
  NoDup c -> NoDup (connect_step c name).
Proof.
  destruct name as [a b]. intros H.
  assert (Hsnoc : forall x, ~ In x c -> NoDup (c ++ [x])).
  { intros x Hx. apply NoDup_app; [exact H | repeat constructor; intros [] |].
    intros y Hy [<- | []]. contradiction. }
  destruct (connect_step_cases c a b) as [[-> _] | [[-> [Ha _]] | [-> [_ Hb]]]];
    auto.
Qed.

Lemma pass_incl (names : list (string * string)) (c : list string) (x : string) :
  In x c -> In x (fold_left connect_step names c).
Proof.
  revert c. induction names as [| name names IH]; simpl; intros c H; [exact H |].
  apply IH. apply connect_step_incl. exact H.
Qed.

Lemma pass_NoDup (names : list (string * string)) (c : list string) :
  NoDup c -> NoDup (fold_left connect_step names c).
Proof.
  revert c. induction names as [| name names IH]; simpl; intros c H; [exact H |].
  apply IH. apply connect_step_NoDup. exact H.
Qed.

(** One pass adds both ends of every listed pair that has an end in the set
    the pass starts with. *)
Lemma pass_both (names : list (string * string)) (c : list string) (a b : string) :
  In (a, b) names -> In a c \/ In b c ->
  In a (fold_left connect_step names c) /\ In b (fold_left connect_step names c).
Proof.
  revert c. induction names as [| name names IH]; cbn [fold_left In];
    intros c Hin Hc; [contradiction |].
  destruct Hin as [-> | Hin].
  - destruct (connect_step_both c a b Hc) as [Ha Hb].
    split; apply pass_incl; assumption.
  - apply IH; [exact Hin |].
    destruct Hc as [Hc | Hc]; [left | right]; apply connect_step_incl; exact Hc.
Qed.

(** A pass keeps every property of the labels of the set that is handed on
    along the listed pairs. *)
Lemma pass_invariant (P : string -> Prop) (names : list (string * string))
  (c : list string) :
  (forall a b, In (a, b) names -> (P a -> P b) /\ (P b -> P a)) ->
  (forall x, In x c -> P x) ->
  forall x, In x (fold_left connect_step names c) -> P x.
Proof.
  revert c. induction names as [| [a b] names IH]; cbn [fold_left];
    intros c Hstep Hc; [exact Hc |].
  apply IH; [intros a' b' H; apply Hstep; right; exact H |].
  destruct (Hstep a b (or_introl eq_refl)) as [Hab Hba].
  intros x Hx.
  destruct (connect_step_cases c a b) as [[E _] | [[E [_ Hb]] | [E [Ha _]]]];
    rewrite E in Hx.
  - exact (Hc x Hx).
  - apply in_app_or in Hx as [Hx | [<- | []]]; [exact (Hc x Hx) |].
    apply Hba, Hc, Hb.
  - apply in_app_or in Hx as [Hx | [<- | []]]; [exact (Hc x Hx) |].
    apply Hab, Hc, Ha.
Qed.

Lemma get_connected_nodes_passes (first : edge) (rest : list edge) :
  get_connected_nodes (first :: rest)
  = Done (fold_left connect_step (map endpoints (first :: rest))
            (fold_left connect_step (map endpoints (first :: rest))
               [edge_row first; edge_column first])).
Proof. reflexivity. Qed.

Lemma endpoints_linked (edges : list edge) (a b : string) :
  In (a, b) (map endpoints edges) -> linked edges a b /\ linked edges b a.
Proof.
  intros H. apply in_map_iff in H as [e [He Hin]].
  unfold endpoints in He. inversion He; subst.
  split; exists e; (split; [exact Hin |]); unfold joins, same_pair;
    rewrite !String.eqb_refl; [reflexivity | apply orb_true_r].
Qed.

Lemma linked_endpoints (edges : list edge) (a b : string) :
  linked edges a b ->
  In (a, b) (map endpoints edges) \/ In (b, a) (map endpoints edges).
Proof.
  intros [e [Hin J]]. unfold joins, same_pair in J.
  apply orb_true_iff in J as [J | J];
    apply andb_true_iff in J as [J1 J2];
    apply String.eqb_eq in J1, J2; subst; [left | right];
    apply in_map_iff; exists e; auto.
Qed.

(** X10: on a non-empty list [get_connected_nodes] returns a list that holds
    both ends of the first edge, holds only ends of listed edges, and has no
    repeated label when the ends of the first edge differ. *)
Theorem get_connected_nodes_basics (first : edge) (rest : list edge) :
  exists connected,
    get_connected_nodes (first :: rest) = Done connected
    /\ In (edge_row first) connected
    /\ In (edge_column first) connected
    /\ (forall v, In v connected ->
          exists e, In e (first :: rest)
                    /\ (v = edge_row e \/ v = edge_column e))
    /\ (edge_row first <> edge_column first -> NoDup connected).
Proof.
  eexists. split; [apply get_connected_nodes_passes |].
  split; [do 2 apply pass_incl; left; reflexivity |].
  split; [do 2 apply pass_incl; right; left; reflexivity |].
  split.
  - set (P := fun v => exists e, In e (first :: rest)
                                 /\ (v = edge_row e \/ v = edge_column e)).
    assert (Hnames : forall a b, In (a, b) (map endpoints (first :: rest)) ->
                                 P a /\ P b).
    { intros a b H. apply in_map_iff in H as [e [He Hin]].
      unfold endpoints in He. inversion He; subst.
      split; exists e; auto. }
    apply (pass_invariant P); [intros a b H; destruct (Hnames a b H); tauto |].
    apply (pass_invariant P); [intros a b H; destruct (Hnames a b H); tauto |].
    intros x [<- | [<- | []]]; exists first; simpl; auto.
  - intros Hne. do 2 apply pass_NoDup.
    constructor; [intros [H | []]; congruence |].
    constructor; [intros [] | constructor].
Qed.

Lemma get_connected_nodes_basics_witness :
  exists connected,
    get_connected_nodes looping_candidates = Done connected
    /\ NoDup connected.
Proof.
  destruct (get_connected_nodes_basics (Edge "A" "B" 1%Z)
              [Edge "C" "A" 3; Edge "D" "E" 1; Edge "F" "D" 2; Edge "G" "A" 4]%Z)
    as [connected [H [_ [_ [_ Hnd]]]]].
  exists connected. split; [exact H |]. apply Hnd. discriminate.
Defined.

(** X11: [get_connected_nodes] never reports a label that cannot be reached
    from the first edge along the listed edges. *)
Theorem get_connected_nodes_sound (first : edge) (rest : list edge)
  (connected : list string) (v : string) :
  get_connected_nodes (first :: rest) = Done connected ->
  In v connected ->
  reach (first :: rest) (edge_row first) v.
Proof.
  rewrite get_connected_nodes_passes. intros H. injection H as <-.
  revert v.
  assert (Hstep : forall a b, In (a, b) (map endpoints (first :: rest)) ->
            (reach (first :: rest) (edge_row first) a ->
             reach (first :: rest) (edge_row first) b)
            /\ (reach (first :: rest) (edge_row first) b ->
                reach (first :: rest) (edge_row first) a)).
  { intros a b H. destruct (endpoints_linked _ a b H) as [Hab Hba].
    split; intros Hr; eapply reach_next; eassumption. }
  apply (pass_invariant (reach (first :: rest) (edge_row first)) _ _ Hstep).
  apply (pass_invariant (reach (first :: rest) (edge_row first))
           (map endpoints (first :: rest))
           [edge_row first; edge_column first] Hstep).
  intros x [<- | [<- | []]]; [apply reach_here |].
  eapply reach_next; [apply reach_here |].
  destruct (endpoints_linked (first :: rest) (edge_row first) (edge_column first))
    as [H _]; [left; reflexivity | exact H].
Qed.

Lemma get_connected_nodes_sound_witness :
  reach looping_candidates "A" "G".
Proof.
  apply (get_connected_nodes_sound (Edge "A" "B" 1%Z)
           [Edge "C" "A" 3; Edge "D" "E" 1; Edge "F" "D" 2; Edge "G" "A" 4]%Z
           ["A"; "B"; "C"; "G"] "G").
  - reflexivity.
  - simpl. auto.
Defined.

(** X12: [get_connected_nodes] reports every label within two edges of an
    end of the first edge; a label three edges away can be missed, as in the
    path A-B-C-D-E listed as [chain_edges]. *)
Theorem get_connected_nodes_two_hops :
  (forall first rest connected u v,
      get_connected_nodes (first :: rest) = Done connected ->
      u = edge_row first \/ u = edge_column first ->
      linked (first :: rest) u v ->
      In v connected
      /\ forall w, linked (first :: rest) v w -> In w connected)
  /\ (get_connected_nodes chain_edges = Done ["A"; "B"; "C"; "D"]
      /\ reach chain_edges "A" "E").
Proof.
  split.
  - intros first rest connected u v H Hu Huv.
    rewrite get_connected_nodes_passes in H. injection H as <-.
    set (names := map endpoints (first :: rest)).
    set (c0 := [edge_row first; edge_column first]).
    assert (Hu0 : In u c0) by (destruct Hu as [-> | ->]; simpl; auto).
    assert (Hv1 : In v (fold_left connect_step names c0)).
    { destruct (linked_endpoints _ u v Huv) as [Hn | Hn].
      - exact (proj2 (pass_both names c0 u v Hn (or_introl Hu0))).
      - exact (proj1 (pass_both names c0 v u Hn (or_intror Hu0))). }
    split; [exact (pass_incl names (fold_left connect_step names c0) v Hv1) |].
    intros w Hvw.
    destruct (linked_endpoints _ v w Hvw) as [Hn | Hn].
    + exact (proj2 (pass_both names (fold_left connect_step names c0) v w Hn
                      (or_introl Hv1))).
    + exact (proj1 (pass_both names (fold_left connect_step names c0) w v Hn
                      (or_intror Hv1))).
  - split; [reflexivity |].
    assert (L : forall a b w, In (Edge a b w) chain_edges -> linked chain_edges a b).
    { intros a b w H. exists (Edge a b w). split; [exact H |].
      unfold joins, same_pair. simpl. rewrite !String.eqb_refl. reflexivity. }
    eapply reach_next; [eapply reach_next; [eapply reach_next;
      [eapply reach_next; [apply reach_here |] |] |] |].
    + apply (L "A" "B" 1%Z). simpl; auto.
    + apply (L "B" "C" 1%Z). simpl; auto.
    + apply (L "C" "D" 1%Z). simpl; auto.
    + apply (L "D" "E" 1%Z). simpl; auto.
Qed.

Lemma get_connected_nodes_two_hops_witness :
  In "C" ["A"; "B"; "C"; "D"]
  /\ forall w, linked chain_edges "C" w -> In w ["A"; "B"; "C"; "D"].
Proof.
  apply (proj1 get_connected_nodes_two_hops (Edge "A" "B" 1%Z)
           [Edge "D" "E" 1; Edge "C" "D" 1; Edge "B" "C" 1]%Z
           ["A"; "B"; "C"; "D"] "B" "C").
  - reflexivity.
  - right. reflexivity.
  - exists (Edge "B" "C" 1%Z). split; [simpl; auto | reflexivity].
Defined.

(** ** The repair loop *)

Lemma item_Done {A : Type} (l : list A) (i : nat) (x : A) :
  item l i = Done x -> nth_error l i = Some x.
Proof.
  unfold item. destruct (nth_error l i); intros H; inversion H; reflexivity.
Qed.

Lemma add_isolated_loop_appends (fuel : nat) (node_names : list string)
  (vertices : list (list edge)) (shortest_edges : list edge)
  (isolated_nodes : list string) (final : list edge) :
  add_isolated_loop fuel node_names vertices shortest_edges isolated_nodes
  = Done final ->
  exists added,
    final = shortest_edges ++ added
    /\ (length added <= fuel)%nat
    /\ (isolated_nodes = [] -> added = [])
    /\ Forall (fun e => exists line, In line vertices
                                     /\ nth_error line 1 = Some e) added.
Proof.
  revert shortest_edges isolated_nodes.
  induction fuel as [| fuel IH]; intros shortest_edges isolated_nodes H.
  - destruct isolated_nodes; simpl in H; [| discriminate].
    inversion H; subst. exists []. rewrite app_nil_r.
    split; [reflexivity |]. split; [simpl; lia |]. split; [reflexivity |].
    constructor.
  - destruct isolated_nodes as [| tmp rest]; cbn [add_isolated_loop] in H.
    + inversion H; subst. exists []. rewrite app_nil_r.
      split; [reflexivity |]. split; [simpl; lia |]. split; [reflexivity |].
      constructor.
    + bind_inv H.
      destruct (IH _ _ H) as [added [Hfinal [Hlen [_ Hall]]]].
      exists (a1 :: added). rewrite Hfinal, <- app_assoc.
      split; [reflexivity |]. split; [simpl; lia |].
      split; [discriminate |].
      constructor; [| exact Hall].
      exists a0. split; [| apply item_Done; assumption].
      eapply nth_error_In. apply item_Done. eassumption.
Qed.

(** X13: [add_isolated_node] only appends to the edge list: the list it
    leaves is the list it was given followed by the added edges, each of
    which is the second entry of one of the per-vertex lists, and the number
    it returns is the number of added edges.  With nothing isolated it
    returns 0 and leaves the list as it is. *)
Theorem add_isolated_node_appends :
  (forall fuel node_names vertices shortest_edges connected,
      add_isolated_node fuel node_names vertices shortest_edges [] connected
      = Done (0%Z, shortest_edges))
  /\ (forall fuel node_names vertices shortest_edges isolated connected
             count final,
        add_isolated_node fuel node_names vertices shortest_edges
          isolated connected = Done (count, final) ->
        exists added,
          final = shortest_edges ++ added
          /\ count = Z.of_nat (length added)
          /\ Forall (fun e => exists line, In line vertices
                                           /\ nth_error line 1 = Some e) added).
Proof.
  split.
  - intros fuel node_names vertices shortest_edges connected.
    unfold add_isolated_node.
    replace (add_isolated_loop fuel node_names vertices shortest_edges [])
      with (Done shortest_edges) by (destruct fuel; reflexivity).
    cbn [bind]. rewrite Z.sub_diag. reflexivity.
  - intros fuel node_names vertices shortest_edges isolated connected
      count final H.
    unfold add_isolated_node in H. apply bind_Done_inv in H as [final' [Hl H]].
    inversion H; subst; clear H.
    destruct (add_isolated_loop_appends _ _ _ _ _ _ Hl)
      as [added [Hfinal [_ [_ Hall]]]].
    exists added. split; [exact Hfinal |]. split; [| exact Hall].
    rewrite Hfinal, length_app. lia.
Qed.

(** The repair of the example network: E and G are isolated and one edge,
    E-D, is added. *)
Lemma add_isolated_node_appends_witness :
  exists added,
    [Edge "A" "C" 10; Edge "B" "A" 14; Edge "D" "B" 15; Edge "E" "G" 9;
     Edge "F" "D" 17; Edge "E" "D" 16]%Z
    = [Edge "A" "C" 10; Edge "B" "A" 14; Edge "D" "B" 15; Edge "E" "G" 9;
       Edge "F" "D" 17]%Z ++ added
    /\ 1%Z = Z.of_nat (length added)
    /\ Forall (fun e => exists line, In line (get_nodes example_frame)
                                     /\ nth_error line 1 = Some e) added.
Proof.
  apply (proj2 add_isolated_node_appends 1%nat vertices_name
           (get_nodes example_frame)
           [Edge "A" "C" 10; Edge "B" "A" 14; Edge "D" "B" 15; Edge "E" "G" 9;
            Edge "F" "D" 17]%Z
           ["E"; "G"] ["A"; "C"; "B"; "D"; "F"]).
  vm_compute. reflexivity.
Defined.

Lemma isolated_of_nil (node_names connected : list string) :
  isolated_of node_names connected = []
  <-> forall x, In x node_names -> In x connected.
Proof.
  unfold isolated_of. induction node_names as [| y names IH]; simpl.
  - split; [intros _ x [] | reflexivity].
  - destruct (py_in y connected) eqn:E; simpl.
    + apply py_in_In in E. rewrite IH. split.
      * intros H x [<- | Hx]; auto.
      * intros H x Hx. apply H. right. exact Hx.
    + apply py_in_false in E. split; [discriminate |].
      intros H. exfalso. apply E. apply H. left. reflexivity.
Qed.

(** X14: when [add_isolated_node] is called with a non-empty list of
    isolated labels and returns, every label of [node_names] is in the
    connected set of the edge list it leaves. *)
Theorem add_isolated_node_connects
  (fuel : nat) (node_names : list string) (vertices : list (list edge))
  (shortest_edges : list edge) (isolated connected : list string)
  (count : Z) (final : list edge) :
  isolated <> [] ->
  add_isolated_node fuel node_names vertices shortest_edges isolated connected
  = Done (count, final) ->
  exists connected',
    get_connected_nodes final = Done connected'
    /\ forall x, In x node_names -> In x connected'.
Proof.
  intros Hne H. unfold add_isolated_node in H.
  apply bind_Done_inv in H as [final' [Hl H]]. inversion H; subst; clear H.
  destruct (add_isolated_loop_done _ _ _ _ _ _ Hl) as [[Hiso _] | [c [Hc Hi]]];
    [contradiction |].
  exists c. split; [exact Hc |]. apply isolated_of_nil. exact Hi.
Qed.

Lemma add_isolated_node_connects_witness :
  exists connected',
    get_connected_nodes
      [Edge "A" "C" 10; Edge "B" "A" 14; Edge "D" "B" 15; Edge "E" "G" 9;
       Edge "F" "D" 17; Edge "E" "D" 16]%Z = Done connected'
    /\ forall x, In x vertices_name -> In x connected'.
Proof.
  apply (add_isolated_node_connects 1%nat vertices_name
           (get_nodes example_frame)
           [Edge "A" "C" 10; Edge "B" "A" 14; Edge "D" "B" 15; Edge "E" "G" 9;
            Edge "F" "D" 17]%Z
           ["E"; "G"] ["A"; "C"; "B"; "D"; "F"] 1%Z).
  - discriminate.
  - vm_compute. reflexivity.
Defined.

(** ** Costs *)

Lemma sum_costs_app (l1 l2 : list edge) :
  sum_costs (l1 ++ l2) = (sum_costs l1 + sum_costs l2)%Z.
Proof.
  induction l1 as [| e l1 IH]; simpl; [reflexivity |]. rewrite IH. lia.
Qed.

Lemma sum_costs_perm (l1 l2 : list edge) :
  Permutation l1 l2 -> sum_costs l1 = sum_costs l2.
Proof.
  induction 1; simpl; lia.
Qed.

Lemma wrap64_add (a b : Z) : wrap64 (wrap64 a + wrap64 b) = wrap64 (a + b).
Proof.
  apply wrap64_eq. rewrite Zplus_mod, !wrap64_mod, <- Zplus_mod. reflexivity.
Qed.

(** X15: [network_cost] adds up over concatenation, with the 64-bit addition
    of the program, and does not depend on the order of the edges; it is the
    sum of the costs whenever that sum fits in 64 bits. *)
Theorem network_cost_compose :
  (forall l1 l2,
      network_cost (l1 ++ l2) = int64_add (network_cost l1) (network_cost l2))
  /\ (forall l1 l2, Permutation l1 l2 -> network_cost l1 = network_cost l2)
  /\ (forall l, in_int64 (sum_costs l) = true -> network_cost l = sum_costs l).
Proof.
  split; [| split].
  - intros l1 l2. unfold int64_add. rewrite !network_cost_sum, sum_costs_app.
    symmetry. apply wrap64_add.
  - intros l1 l2 H. rewrite !network_cost_sum. f_equal.
    apply sum_costs_perm. exact H.
  - intros l H. rewrite network_cost_sum. apply wrap64_small. exact H.
Qed.

Lemma network_cost_compose_witness :
  network_cost [Edge "A" "B" 1%Z; Edge "C" "D" 2%Z]
  = network_cost [Edge "C" "D" 2%Z; Edge "A" "B" 1%Z].
Proof.
  apply (proj1 (proj2 network_cost_compose)). apply perm_swap.
Defined.

(** ** The orchestrator when nothing is isolated *)

(** X16: when the deduplicated cheapest edges already connect the seven
    labels, [maximum_saving] returns without entering the repair loop: the
    result is the cost of the distinct edges minus the cost of the
    deduplicated cheapest edges, both costs and their difference being
    computed by the program in 64 bits with wrap-around. *)
Theorem maximum_saving_without_repair (fuel : nat) (text : string)
  (df : DataFrame) (cand : list edge) (connected : list string) :
  wrangle text vertices_name = Done df ->
  get_shortest_edges (get_nodes df) = Done cand ->
  get_connected_nodes (find_unique_node cand) = Done connected ->
  (forall x, In x vertices_name -> In x connected) ->
  maximum_saving fuel text
  = Done (int64_sub (network_cost (concat (get_unique_nodes df)))
            (network_cost (find_unique_node cand))).
Proof.
  intros Hw Hc Hconn Hall. unfold maximum_saving.
  rewrite Hw; cbn [bind]. rewrite Hc; cbn [bind]. rewrite Hconn; cbn [bind].
  rewrite (proj2 (isolated_of_nil vertices_name connected) Hall).
  unfold add_isolated_node.
  replace (add_isolated_loop fuel vertices_name (get_nodes df)
             (find_unique_node cand) [])
    with (Done (find_unique_node cand)) by (destruct fuel; reflexivity).
  reflexivity.
Qed.

Lemma maximum_saving_without_repair_witness :
  maximum_saving 0 star_network = Done 0%Z.
Proof.
  apply (maximum_saving_without_repair 0 star_network
           (mkDataFrame vertices_name vertices_name
              [[0; 1; 2; 3; 4; 5; 6]; [1; 0; 0; 0; 0; 0; 0];
               [2; 0; 0; 0; 0; 0; 0]; [3; 0; 0; 0; 0; 0; 0];
               [4; 0; 0; 0; 0; 0; 0]; [5; 0; 0; 0; 0; 0; 0];
               [6; 0; 0; 0; 0; 0; 0]]%Z)
           [Edge "A" "B" 1; Edge "B" "A" 1; Edge "C" "A" 2; Edge "D" "A" 3;
            Edge "E" "A" 4; Edge "F" "A" 5; Edge "G" "A" 6]%Z
           ["A"; "B"; "C"; "D"; "E"; "F"; "G"]).
  - vm_compute. reflexivity.
  - vm_compute. reflexivity.
  - vm_compute. reflexivity.
  - intros x Hx. exact Hx.
Defined.

(** ** Which cell gives an edge its cost *)

Lemma in_before_or (a b : string) (l : list string) :
  In a l -> In b l -> a <> b -> before a b l \/ before b a l.
Proof.
  intros Ha Hb Hne. apply in_split in Ha as [l1 [l2 ->]].
  apply in_app_or in Hb as [Hb | [Hb | Hb]]; [| congruence |].
  - right. apply in_split in Hb as [m1 [m2 ->]].
    exists m1, m2, l2. rewrite <- app_assoc. reflexivity.
  - left. apply in_split in Hb as [m1 [m2 ->]].
    exists l1, m1, m2. reflexivity.
Qed.

Lemma prefix_before_first {A : Type} (e : A) (l1 l2 P B : list A) :
  l1 ++ e :: l2 = P ++ B -> ~ In e P -> exists Q, l1 = P ++ Q.
Proof.
  revert l1. induction P as [| p P IH]; intros l1 H Hn.
  - exists l1. reflexivity.
  - destruct l1 as [| x l1]; simpl in H.
    + inversion H; subst. exfalso. apply Hn. left. reflexivity.
    + inversion H; subst.
      destruct (IH l1 H2) as [Q ->];
        [intros Hin; apply Hn; right; exact Hin |].
      exists Q. reflexivity.
Qed.

Lemma scan_rows_In (df : DataFrame) (rows : list string) (x : edge) :
  In x (flat_map (fun row => row_edges df row (columns df)) rows) ->
  In (edge_row x) rows.
Proof.
  intros H. apply in_flat_map in H as [v [Hv Hx]].
  apply row_edges_row in Hx as [Hx _]. congruence.
Qed.

(** X18: with distinct labels of one length, an edge of the distinct-edge
    list is recorded from the row of whichever of its two labels comes first
    in the label list, unless the cell there is zero.  For a symmetric matrix
    the distinct edges are therefore cells above the diagonal. *)
Theorem get_unique_nodes_first_cell (df : DataFrame) (e : edge) :
  columns df = index df ->
  NoDup (index df) ->
  uniform_labels (index df) ->
  In e (concat (get_unique_nodes df)) ->
  before (edge_row e) (edge_column e) (index df)
  \/ (before (edge_column e) (edge_row e) (index df)
      /\ loc df (edge_column e) (edge_row e) = 0%Z).
Proof.
  intros Hsq Hnd Hu He.
  rewrite (get_unique_nodes_spec df Hsq Hu) in He. unfold spec_distinctEdges in He.
  pose proof (first_of_pair_In _ _ _ He) as Hscan.
  destruct (first_of_pair_first _ _ _ He) as [_ [l1 [l2 [El Hl1]]]].
  unfold scan_edges in Hscan. apply in_flat_map in Hscan as [r [Hr Hin]].
  apply row_edges_row in Hin as [Hrow [Hcol [Hne _]]].
  rewrite Hsq in Hcol. rewrite <- Hrow in Hr, Hne.
  destruct (in_before_or (edge_row e) (edge_column e) (index df) Hr Hcol)
    as [Hb | Hb]; [congruence | left; exact Hb |].
  right. split; [exact Hb |].
  destruct (Z.eq_dec (loc df (edge_column e) (edge_row e)) 0) as [Hz | Hnz];
    [exact Hz | exfalso].
  destruct Hb as [i1 [i2 [i3 Ei]]].
  set (f := fun row => row_edges df row (columns df)).
  assert (Es : scan_edges df
               = flat_map f (i1 ++ [edge_column e])
                 ++ flat_map f (i2 ++ edge_row e :: i3)).
  { unfold scan_edges. fold f. rewrite Ei. rewrite <- flat_map_app.
    rewrite <- app_assoc. reflexivity. }
  assert (Hnot : ~ In e (flat_map f (i1 ++ [edge_column e]))).
  { intros H. apply scan_rows_In in H.
    rewrite Ei in Hnd.
    apply in_app_or in H as [H | [H | []]].
    - replace (i1 ++ edge_column e :: i2 ++ edge_row e :: i3)
        with ((i1 ++ edge_column e :: i2) ++ edge_row e :: i3) in Hnd
        by (rewrite <- app_assoc; reflexivity).
      apply NoDup_remove_2 in Hnd.
      apply Hnd. apply in_or_app. left. apply in_or_app. left. exact H.
    - apply Hne. exact H. }
  rewrite Es in El. symmetry in El.
  destruct (prefix_before_first e l1 l2 _ _ El Hnot) as [Q ->].
  assert (Hrev : In (Edge (edge_column e) (edge_row e)
                       (loc df (edge_column e) (edge_row e)))
                   (flat_map f (i1 ++ [edge_column e]))).
  { apply in_flat_map. exists (edge_column e).
    split; [apply in_or_app; right; left; reflexivity |].
    apply row_edges_In; [rewrite Hsq; exact Hr | congruence | exact Hnz]. }
  specialize (Hl1 _ (in_or_app _ Q _ (or_introl Hrev))).
  unfold joins, same_pair in Hl1. simpl in Hl1.
  rewrite !String.eqb_refl in Hl1. rewrite orb_true_r in Hl1. discriminate.
Qed.

Lemma get_unique_nodes_first_cell_witness :
  before "A" "B" (index looping_frame)
  \/ (before "B" "A" (index looping_frame)
      /\ loc looping_frame "B" "A" = 0%Z).
Proof.
  apply (get_unique_nodes_first_cell looping_frame (Edge "A" "B" 1%Z)).
  - reflexivity.
  - simpl. repeat constructor; simpl; intuition discriminate.
  - exact vertices_name_uniform.
  - vm_compute. left. reflexivity.
Defined.

(** ** What can go wrong after a successful parse *)

Lemma index_of_In (x : string) (l : list string) :
  In x l -> exists i, index_of x l = Some i.
Proof.
  induction l as [| y l IH]; simpl; [contradiction |].
  destruct (String.eqb_spec x y) as [E | N]; [eexists; reflexivity |].
  intros [H | H]; [congruence |].
  destruct (IH H) as [i Hi]. rewrite Hi. eexists; reflexivity.
Qed.

Lemma item_outcomes {A : Type} (l : list A) (i : nat) :
  (exists x, item l i = Done x) \/ item l i = Raise IndexOutOfRange.
Proof.
  unfold item. destruct (nth_error l i); [left; eexists; reflexivity | right; reflexivity].
Qed.

Lemma get_connected_nodes_outcomes (l : list edge) :
  (exists c, get_connected_nodes l = Done c)
  \/ get_connected_nodes l = Raise IndexOutOfRange.
Proof.
  destruct l as [| first rest]; [right; reflexivity |].
  left. eexists. apply get_connected_nodes_passes.
Qed.

Lemma add_isolated_loop_outcomes (fuel : nat) (node_names : list string)
  (vertices : list (list edge)) (shortest_edges : list edge)
  (isolated_nodes : list string) :
  (forall x, In x isolated_nodes -> In x node_names) ->
  (exists final,
      add_isolated_loop fuel node_names vertices shortest_edges isolated_nodes
      = Done final)
  \/ add_isolated_loop fuel node_names vertices shortest_edges isolated_nodes
     = OutOfFuel
  \/ add_isolated_loop fuel node_names vertices shortest_edges isolated_nodes
     = Raise IndexOutOfRange.
Proof.
  revert shortest_edges isolated_nodes.
  induction fuel as [| fuel IH]; intros shortest_edges isolated_nodes Hsub.
  - destruct isolated_nodes; simpl; [left; eexists; reflexivity | auto].
  - destruct isolated_nodes as [| tmp rest]; cbn [add_isolated_loop];
      [left; eexists; reflexivity |].
    unfold list_index.
    destruct (index_of_In tmp node_names (Hsub tmp (or_introl eq_refl)))
      as [i Hi].
    rewrite Hi. cbn [bind].
    destruct (item_outcomes vertices i) as [[line Hl] | Hl];
      rewrite Hl; cbn [bind]; [| auto].
    destruct (item_outcomes line 1) as [[e He] | He];
      rewrite He; cbn [bind]; [| auto].
    destruct (get_connected_nodes_outcomes (shortest_edges ++ [e]))
      as [[c Hc] | Hc]; rewrite Hc; cbn [bind]; [| auto].
    apply IH. intros x Hx. unfold isolated_of in Hx.
    apply filter_In in Hx as [Hx _]. exact Hx.
Qed.

(** X17: once the text has been parsed into a frame, [maximum_saving]
    either returns, or raises [IndexError], or never leaves the repair loop;
    it raises no [ValueError] after the parse. *)
Theorem maximum_saving_outcomes (fuel : nat) (text : string) (df : DataFrame) :
  wrangle text vertices_name = Done df ->
  (exists v, maximum_saving fuel text = Done v)
  \/ maximum_saving fuel text = OutOfFuel
  \/ maximum_saving fuel text = Raise IndexOutOfRange.
Proof.
  intros Hw. unfold maximum_saving. rewrite Hw; cbn [bind].
  rewrite candidates_per_row; cbn [bind].
  match goal with
  | |- context [find_unique_node ?l] => set (cand := find_unique_node l)
  end.
  destruct (get_connected_nodes_outcomes cand) as [[c Hc] | Hc];
    rewrite Hc; cbn [bind]; [| auto].
  unfold add_isolated_node.
  destruct (add_isolated_loop_outcomes fuel vertices_name (get_nodes df) cand
              (isolated_of vertices_name c))
    as [[final Hf] | [Hf | Hf]]; try (rewrite Hf; cbn [bind]; auto; fail).
  - intros x Hx. unfold isolated_of in Hx.
    apply filter_In in Hx as [Hx _]. exact Hx.
  - rewrite Hf; cbn [bind]. left. eexists. reflexivity.
Qed.

Lemma maximum_saving_outcomes_witness :
  (exists v, maximum_saving 1 example_network = Done v)
  \/ maximum_saving 1 example_network = OutOfFuel
  \/ maximum_saving 1 example_network = Raise IndexOutOfRange.
Proof.
  apply (maximum_saving_outcomes 1 example_network example_frame).
  vm_compute. reflexivity.
Defined.

(** ** The repair of a vertex with a single edge *)

(** C6, as the code has it: when every vertex has an incident edge and the
    first isolated vertex has fewer than two incident edges, the computation
    stops with [IndexError], the exception of the out-of-range access
    [vertices[...][1]]; the exception does not name the vertex. *)
Theorem repair_of_single_edge_vertex (fuel : nat) (text : string)
  (df : DataFrame) (cand : list edge) (connected : list string)
  (tmp : string) (rest : list string) :
  wrangle text vertices_name = Done df ->
  (forall v, In v vertices_name -> has_edge df v) ->
  get_shortest_edges (get_nodes df) = Done cand ->
  get_connected_nodes (find_unique_node cand) = Done connected ->
  isolated_of vertices_name connected = tmp :: rest ->
  (length (row_edges df tmp (columns df)) < 2)%nat ->
  maximum_saving (S fuel) text = Raise IndexOutOfRange
  /\ exn_name IndexOutOfRange = "IndexError".
Proof.
  intros Hw Hall Hc Hconn Hiso Hshort. split; [| reflexivity].
  destruct (wrangle_Done_axes _ _ _ Hw) as [Hi _].
  assert (Htmp : In tmp vertices_name).
  { assert (H : In tmp (isolated_of vertices_name connected))
      by (rewrite Hiso; left; reflexivity).
    unfold isolated_of in H. apply filter_In in H as [H _]. exact H. }
  destruct (index_of_In tmp vertices_name Htmp) as [i Hidx].
  assert (Hentry : forall line,
             nth_error (get_nodes df) i = Some line -> (length line < 2)%nat).
  { intros line Hline.
    rewrite get_nodes_aligned in Hline by (rewrite Hi; exact Hall).
    rewrite nth_error_map, Hi, (index_of_Some _ _ _ Hidx) in Hline.
    inversion Hline; subst line.
    rewrite (Permutation_length (py_sorted_perm _)). exact Hshort. }
  unfold maximum_saving.
  rewrite Hw; cbn [bind]. rewrite Hc; cbn [bind]. rewrite Hconn; cbn [bind].
  rewrite Hiso.
  rewrite (proj1 (add_isolated_node_short_entry fuel vertices_name (get_nodes df)
                    (find_unique_node cand) tmp rest connected i Hidx Hentry)).
  reflexivity.
Qed.

(** In [single_edge_network] every vertex has an edge, C is isolated first
    and has the single edge C-D. *)
Lemma repair_of_single_edge_vertex_witness :
  maximum_saving 1 single_edge_network = Raise IndexOutOfRange
  /\ exn_name IndexOutOfRange = "IndexError".
Proof.
  apply (repair_of_single_edge_vertex 0 single_edge_network single_edge_frame
           [Edge "A" "B" 1; Edge "B" "A" 1; Edge "C" "D" 1; Edge "D" "C" 1;
            Edge "E" "A" 9; Edge "F" "A" 9; Edge "G" "A" 9]%Z
           ["A"; "B"; "E"; "F"; "G"] "C" ["D"]).
  - vm_compute. reflexivity.
  - intros v Hv. apply row_edges_has_edge. simpl in Hv.
    destruct Hv as [<- | [<- | [<- | [<- | [<- | [<- | [<- | []]]]]]]];
      vm_compute; discriminate.
  - vm_compute. reflexivity.
  - vm_compute. reflexivity.
  - vm_compute. reflexivity.
  - vm_compute. lia.
Defined.

(** A vertex without edges is not covered by the statement above: its label
    has no entry in [get_nodes], the entries of the labels after it are
    shifted, and the loop reads the list of another vertex.  In
    [orphan_network] the isolated vertex A makes the loop append B's
    second-cheapest edge B-D, which connects nothing new, for ever. *)
Lemma orphan_loop (fuel k : nat) :
  add_isolated_loop fuel vertices_name (get_nodes orphan_frame)
    (orphan_candidates ++ repeat (Edge "B" "D" 2%Z) k) ["A"]
  = OutOfFuel.
Proof.
  revert k. induction fuel as [| fuel IH]; intros k; [reflexivity |].
  cbn [add_isolated_loop].
  replace (list_index "A" vertices_name) with (Done (A := nat) 0)
    by (vm_compute; reflexivity).
  cbn [bind].
  replace (item (get_nodes orphan_frame) 0)
    with (Done [Edge "B" "C" 1; Edge "B" "D" 2; Edge "B" "E" 3;
                Edge "B" "F" 4; Edge "B" "G" 5]%Z) by (vm_compute; reflexivity).
  cbn [bind item nth_error].
  rewrite <- app_assoc.
  replace (repeat (Edge "B" "D" 2%Z) k ++ [Edge "B" "D" 2%Z])
    with (repeat (Edge "B" "D" 2%Z) (S k))
    by (cbn [repeat]; rewrite repeat_cons; reflexivity).
  unfold orphan_candidates at 1.
  rewrite get_connected_nodes_repeat; [| vm_compute; reflexivity ..].
  cbn [bind].
  match goal with
  | |- add_isolated_loop _ _ _ _ ?iso = _ =>
      replace iso with ["A"] by (vm_compute; reflexivity)
  end.
  apply IH.
Qed.

Lemma orphan_vertex_loops :
  wrangle orphan_network vertices_name = Done orphan_frame
  /\ row_edges orphan_frame "A" (columns orphan_frame) = []
  /\ forall fuel, maximum_saving fuel orphan_network = OutOfFuel.
Proof.
  split; [vm_compute; reflexivity |]. split; [vm_compute; reflexivity |].
  intros fuel. unfold maximum_saving.
  replace (wrangle orphan_network vertices_name) with (Done orphan_frame)
    by (vm_compute; reflexivity).
  cbn [bind].
  replace (get_shortest_edges (get_nodes orphan_frame))
    with (Done [Edge "B" "C" 1; Edge "C" "B" 1; Edge "D" "B" 2;
                Edge "E" "B" 3; Edge "F" "B" 4; Edge "G" "B" 5]%Z)
    by (vm_compute; reflexivity).
  cbn [bind].
  match goal with
  | |- context [find_unique_node ?l] =>
      replace (find_unique_node l) with orphan_candidates
        by (vm_compute; reflexivity)
  end.
  replace (get_connected_nodes orphan_candidates)
    with (Done ["B"; "C"; "D"; "E"; "F"; "G"]) by (vm_compute; reflexivity).
  cbn [bind].
  replace (isolated_of vertices_name ["B"; "C"; "D"; "E"; "F"; "G"])
    with ["A"] by (vm_compute; reflexivity).
  unfold add_isolated_node.
  pose proof (orphan_loop fuel 0) as H. simpl repeat in H.
  rewrite app_nil_r in H. rewrite H. reflexivity.
Qed.
